(** * ships.py: scraping the pledge-vehicle table and the in-space images

    A shallow embedding of [ships.py].  The HTML documents handed out by
    BeautifulSoup are modelled as finite trees, the exceptions of Python as
    an error result, and the network, the file system and the console as an
    explicit world that every effectful function threads through. *)

From Stdlib Require Import ZArith Ascii String.
From stdpp Require Import gmap strings list fin_maps.

Local Open Scope string_scope.

(** ** Exceptions and the two monads *)

(** The exception classes the module can raise.  [ConnectionError] stands
    for every transport failure of [requests.get]. *)
Inductive exn :=
| KeyError | TypeError | AttributeError | ValueError | IndexError
| ConnectionError.

Global Instance exn_eq_dec : EqDecision exn.
Proof. solve_decision. Defined.

Inductive result (A : Type) :=
| Ok (a : A)
| Raise (e : exn).
Arguments Ok {A} a.
Arguments Raise {A} e.

Definition rbind {A B} (r : result A) (k : A -> result B) : result B :=
  match r with
  | Ok a => k a
  | Raise e => Raise e
  end.

Notation "'let?' x ':=' c 'in' k" := (rbind c (fun x => k))
  (at level 10, x name, c at level 200, k at level 200).

(** A list comprehension whose body may raise: evaluated left to right, the
    first exception ends it. *)
Fixpoint rmap {A B} (f : A -> result B) (l : list A) : result (list B) :=
  match l with
  | [] => Ok []
  | a :: l' => let? b := f a in let? bs := rmap f l' in Ok (b :: bs)
  end.

(** [try: r except e: h] *)
Definition try_except {A} (r : result A) (e : exn) (h : result A) : result A :=
  match r with
  | Ok a => Ok a
  | Raise e' => if decide (e' = e) then h else Raise e'
  end.

(** ** Documents *)

(** A BeautifulSoup tree as [html.parser] builds it: a tag has a name, its
    attributes and its contents.  The [class] attribute is the one attribute
    of these pages that the tree builder splits into a list of tokens; it is
    kept apart in [cls] ([None] when the tag has no [class] attribute), and
    every other attribute is a string in [attrs]. *)
#[warnings="-register-all"]
Inductive node :=
| NavigableString (s : string)
| Tag (name : string) (cls : option (list string))
      (attrs : gmap string string) (contents : list node).

Definition tag_name (n : node) : option string :=
  match n with
  | Tag nm _ _ _ => Some nm
  | NavigableString _ => None
  end.

Definition tag_cls (n : node) : option (list string) :=
  match n with
  | Tag _ c _ _ => c
  | NavigableString _ => None
  end.

Definition tag_attrs (n : node) : gmap string string :=
  match n with
  | Tag _ _ a _ => a
  | NavigableString _ => ∅
  end.

Definition tag_contents (n : node) : list node :=
  match n with
  | Tag _ _ _ cs => cs
  | NavigableString _ => []
  end.

Definition is_tag (n : node) : bool :=
  match n with
  | Tag _ _ _ _ => true
  | NavigableString _ => false
  end.

(** [tag.descendants]: every node below [n], in document order. *)
Fixpoint descendants (n : node) : list node :=
  match n with
  | NavigableString _ => []
  | Tag _ _ _ cs => flat_map (fun c => c :: descendants c) cs
  end.

(** [tag.find_all(...)] and [tag.find(...)] for a test [p] on nodes. *)
Definition find_all (p : node -> bool) (n : node) : list node :=
  List.filter p (descendants n).

Definition find (p : node -> bool) (n : node) : option node :=
  head (find_all p n).

(** The tests the module searches with.  A name test only holds of tags; a
    class test [find(name, c)] holds when [c] is one of the class tokens. *)
Definition named (nm : string) (n : node) : bool :=
  bool_decide (tag_name n = Some nm).

Definition has_class (c : string) (n : node) : bool :=
  match tag_cls n with
  | Some l => bool_decide (c ∈ l)
  | None => false
  end.

Definition named_class (nm c : string) (n : node) : bool :=
  named nm n && has_class c n.

Definition attr_is (k v : string) (n : node) : bool :=
  is_tag n && bool_decide (tag_attrs n !! k = Some v).

(** [tag[k]]: the attribute, [KeyError] when the tag does not carry it.
    Subscripting the [None] that a failed [find] returned is a
    [TypeError]. *)
Definition getitem (o : option node) (k : string) : result string :=
  match o with
  | None => Raise TypeError
  | Some n =>
      match tag_attrs n !! k with
      | Some v => Ok v
      | None => Raise KeyError
      end
  end.

(** [o.a]: the first [a] tag below [o]; an [AttributeError] on [None]. *)
Definition dot_a (o : option node) : result (option node) :=
  match o with
  | None => Raise AttributeError
  | Some n => Ok (find (named "a") n)
  end.

Definition STAR_CITIZEN_WIKI_ROOT : string := "https://starcitizen.tools".

(** ** Extended slice assignment *)

(** The number of positions [start, start + 2, ...] below [n]: the size of
    the slice [l[start::2]] of a list of length [n]. *)
Definition slice_len (start n : nat) : nat := Nat.div2 (S (n - start)).

(** Writes [vals] to positions [i, i + 2, ...] of [l]. *)
Fixpoint assign_from {A} (i : nat) (vals : list A) (l : list A) : list A :=
  match vals with
  | [] => l
  | v :: vs => assign_from (i + 2) vs (<[i:=v]> l)
  end.

(** [l[start::2] = vals].  An extended slice takes exactly as many values
    as it has positions; Python raises [ValueError] otherwise. *)
Definition slice_assign {A} (start : nat) (l vals : list A) : result (list A) :=
  if decide (length vals = slice_len start (length l))
  then Ok (assign_from start vals l)
  else Raise ValueError.

(** ** Cell extractors *)

Section Extraction.

(** Python's [float] on a string is taken as given: [float_of_str s] is the
    number [s] denotes, [None] when [float(s)] raises [ValueError]. *)
Variable F : Type.
Variable float_of_str : string -> option F.

Definition float (s : string) : result F :=
  match float_of_str s with
  | Some f => Ok f
  | None => Raise ValueError
  end.

(** What a cell extractor returns: a string, a float, the integer [-1] of
    the optional columns, or (for [Size]) a node of the tree. *)
Inductive value :=
| VStr (s : string)
| VFloat (f : F)
| VInt (z : Z)
| VNode (n : node).

Definition td (c : string) (row_element : node) : option node :=
  find (named_class "td" c) row_element.

Definition extract_cell_Name (row_element : node) : result value :=
  let? a := dot_a (td "Name" row_element) in
  let? t := getitem a "title" in
  Ok (VStr t).

Definition extract_cell_Wiki (row_element : node) : result value :=
  let? a := dot_a (td "Name" row_element) in
  let? h := getitem a "href" in
  Ok (VStr (STAR_CITIZEN_WIKI_ROOT ++ h)).

Definition extract_cell_Manufacturer (row_element : node) : result value :=
  let? a := dot_a (td "Manufacturer" row_element) in
  let? t := getitem a "title" in
  Ok (VStr t).

Definition extract_cell_Size (row_element : node) : result value :=
  match td "Size" row_element with
  | None => Raise AttributeError
  | Some cell =>
      match tag_contents cell with
      | c :: _ => Ok (VNode c)
      | [] => Raise IndexError
      end
  end.

Definition extract_cell_Length (row_element : node) : result value :=
  let? v := getitem (td "Length" row_element) "data-sort-value" in
  let? f := float v in
  Ok (VFloat f).

Definition extract_cell_Width (row_element : node) : result value :=
  let? v := getitem (td "Width" row_element) "data-sort-value" in
  let? f := float v in
  Ok (VFloat f).

Definition extract_cell_Height (row_element : node) : result value :=
  let? v := getitem (td "Height" row_element) "data-sort-value" in
  let? f := float v in
  Ok (VFloat f).

Definition extract_cell_Max_speed (row_element : node) : result value :=
  try_except
    (let? v := getitem (td "Max-speed" row_element) "data-sort-value" in
     let? f := float v in
     Ok (VFloat f))
    KeyError (Ok (VInt (-1))).

Definition extract_cell_SCM_speed (row_element : node) : result value :=
  try_except
    (let? v := getitem (td "SCM-speed" row_element) "data-sort-value" in
     let? f := float v in
     Ok (VFloat f))
    KeyError (Ok (VInt (-1))).

Definition extract_cell_0_SCM_time (row_element : node) : result value :=
  try_except
    (let? v := getitem (td "0-SCM-time" row_element) "data-sort-value" in
     let? f := float v in
     Ok (VFloat f))
    KeyError (Ok (VInt (-1))).

(** ** Rows and the table *)

(** An ordered mapping from column names to cell extractors. *)
Definition columns_def : Type := list (string * (node -> result value)).

Definition extract_row (row_element : node) (columns : columns_def)
  : result (list value) :=
  rmap (fun column => column.2 row_element) columns.

(** [ships_table] is what [find] returned for the table: calling [find_all]
    on [None] is an [AttributeError]. *)
Definition extract_rows (ships_table : option node) (columns : columns_def)
  : result (list (option (list value))) :=
  match ships_table with
  | None => Raise AttributeError
  | Some table =>
      let? even_rows :=
        rmap (fun row_element => extract_row row_element columns)
             (find_all (named_class "tr" "row-even") table) in
      let? odd_rows :=
        rmap (fun row_element => extract_row row_element columns)
             (find_all (named_class "tr" "row-odd") table) in
      let all_rows := replicate (length even_rows + length odd_rows) None in
      let? all_rows := slice_assign 0 all_rows (Some <$> odd_rows) in
      let? all_rows := slice_assign 1 all_rows (Some <$> even_rows) in
      Ok all_rows
  end.

Definition SHIPS_TABLES_DEF : columns_def :=
  [ ("Name", extract_cell_Name);
    ("Wiki", extract_cell_Wiki);
    ("Manufacturer", extract_cell_Manufacturer);
    ("Size", extract_cell_Size);
    ("Length (m)", extract_cell_Length);
    ("Width (m)", extract_cell_Width);
    ("Height (m)", extract_cell_Height);
    ("Max speed (m/s)", extract_cell_Max_speed);
    ("SCM speed (m/s)", extract_cell_SCM_speed);
    ("0-SCM time (s)", extract_cell_0_SCM_time) ].


End Extraction.

Arguments VStr {F} s.
Arguments VFloat {F} f.
Arguments VInt {F} z.
Arguments VNode {F} n.
Arguments extract_row {F} row_element columns.
Arguments extract_rows {F} ships_table columns.

(** ** Strings, patterns and paths *)

(** Characters are the code points below 256.  [is_space] is the class
    [\s] of [re] on them, [is_alpha] the class [[A-Za-z]]. *)
Definition is_space (c : ascii) : bool :=
  let n := nat_of_ascii c in
  ((9 <=? n) && (n <=? 13) || (28 <=? n) && (n <=? 32)
   || (n =? 133) || (n =? 160))%nat.

Definition is_alpha (c : ascii) : bool :=
  let n := nat_of_ascii c in
  ((65 <=? n) && (n <=? 90) || (97 <=? n) && (n <=? 122))%nat.

Definition ascii_eqb (a b : ascii) : bool := bool_decide (a = b).

(** The character class [[\s|-]]: a white-space character, a vertical bar
    or a hyphen. *)
Definition in_space_sep (c : ascii) : bool :=
  is_space c || ascii_eqb c "|" || ascii_eqb c "-".

(** [re.compile("In[\s|-]space")] matched at the start of [s]. *)
Definition in_space_match (s : string) : bool :=
  match s with
  | String i (String n (String c rest)) =>
      ascii_eqb i "I" && ascii_eqb n "n" && in_space_sep c
      && String.prefix "space" rest
  | _ => false
  end.

(** [pattern.search(s)] for that pattern, as a truth value: BeautifulSoup
    tests an attribute against a compiled pattern with [search]. *)
Fixpoint in_space_search (s : string) : bool :=
  in_space_match s ||
  match s with
  | EmptyString => false
  | String _ s' => in_space_search s'
  end.

(** The longest run of letters at the start of [s], and what follows. *)
Fixpoint span_alpha (s : string) : string * string :=
  match s with
  | String c s' =>
      if is_alpha c
      then let (run, rest) := span_alpha s' in (String c run, rest)
      else (EmptyString, s)
  | EmptyString => (EmptyString, EmptyString)
  end.

Fixpoint take_str (k : nat) (s : string) : string :=
  match k, s with
  | S k', String c s' => String c (take_str k' s')
  | _, _ => EmptyString
  end.

Fixpoint drop_str (k : nat) (s : string) : string :=
  match k, s with
  | S k', String _ s' => drop_str k' s'
  | _, _ => s
  end.

(** The lookahead [(?=\.jpg|\.png)]. *)
Definition ext_ahead (s : string) : bool :=
  String.prefix ".jpg" s || String.prefix ".png" s.

(** [([A-Za-z])+(?=\.jpg|\.png)] matched at the start of [s]: the greedy
    run of letters, given back one letter at a time (down to one letter)
    until the lookahead holds.  [k] counts the letters still to try. *)
Fixpoint view_backtrack (k : nat) (s : string) : option string :=
  match k with
  | 0 => None
  | S k' =>
      if ext_ahead (drop_str (S k') s)
      then Some (take_str (S k') s)
      else view_backtrack k' s
  end.

Definition view_match_here (s : string) : option string :=
  view_backtrack (String.length (span_alpha s).1) s.

(** [pattern.search(s)]: the match at the leftmost position that has one;
    the result is [view_match[0]], the text matched. *)
Fixpoint view_search (s : string) : option string :=
  match view_match_here s with
  | Some m => Some m
  | None =>
      match s with
      | EmptyString => None
      | String _ s' => view_search s'
      end
  end.

(** [os.path.basename]: what follows the last slash. *)
Fixpoint basename_from (cur s : string) : string :=
  match s with
  | EmptyString => cur
  | String c s' =>
      if ascii_eqb c "/" then basename_from EmptyString s'
      else basename_from (cur ++ String c EmptyString) s'
  end.

Definition basename (p : string) : string := basename_from EmptyString p.

Definition ends_with_slash (s : string) : bool :=
  match String.get (String.length s - 1) s with
  | Some c => ascii_eqb c "/"
  | None => false
  end.

(** [os.path.join] of two components (POSIX). *)
Definition path_join (a b : string) : string :=
  if String.prefix "/" b then b
  else if bool_decide (a = EmptyString) || ends_with_slash a then a ++ b
  else a ++ "/" ++ b.

Definition view_fault_tolerance (view : string) : string :=
  if decide (view = "Isometirc") then "Isometric"
  else if decide (view = "Isometrric") then "Isometric"
  else view.

(** ** The world *)

(** What the run does to its surroundings, in order: page loads, the
    creation of the image directory, image downloads (source address and
    destination file) and lines printed. *)
Inductive event :=
| LoadPage (url : string)
| Makedirs (path : string)
| Download (url file_name : string)
| Print (words : list string).

(** [web] is the site: the document behind an address, [None] when
    [requests.get] fails.  [files] are the regular files on disk. *)
Record world := World {
  web : string -> option node;
  files : gset string;
  trace : list event
}.

Definition log (e : event) (w : world) : world :=
  World (web w) (files w) (trace w ++ [e]).

Definition IO (A : Type) : Type := world -> result A * world.

Definition iret {A} (a : A) : IO A := fun w => (Ok a, w).

Definition iraise {A} (e : exn) : IO A := fun w => (Raise e, w).

Definition ibind {A B} (c : IO A) (k : A -> IO B) : IO B :=
  fun w =>
    match c w with
    | (Ok a, w') => k a w'
    | (Raise e, w') => (Raise e, w')
    end.

Notation "'let!' x ':=' c 'in' k" := (ibind c (fun x => k))
  (at level 10, x name, c at level 200, k at level 200).

Definition lift {A} (r : result A) : IO A := fun w => (r, w).

Definition emit (e : event) : IO unit := fun w => (Ok tt, log e w).

(** [try: c except: h; raise] *)
Definition on_error {A} (c : IO A) (h : IO unit) : IO A :=
  fun w =>
    match c w with
    | (Ok a, w') => (Ok a, w')
    | (Raise e, w') =>
        match h w' with
        | (Ok _, w'') => (Raise e, w'')
        | (Raise e', w'') => (Raise e', w'')
        end
    end.

(** [try: c except e: h; raise]: the handler runs for the exception [e]
    only, every other exception passes through untouched. *)
Definition on_exn {A} (e : exn) (c : IO A) (h : IO unit) : IO A :=
  fun w =>
    match c w with
    | (Ok a, w') => (Ok a, w')
    | (Raise e', w') =>
        if decide (e' = e)
        then match h w' with
             | (Ok _, w'') => (Raise e', w'')
             | (Raise e'', w'') => (Raise e'', w'')
             end
        else (Raise e', w')
    end.

(** A [for] loop that carries [acc] through its body. *)
Fixpoint ifold {A B} (f : B -> A -> IO B) (acc : B) (l : list A) : IO B :=
  match l with
  | [] => iret acc
  | a :: l' => let! acc' := f acc a in ifold f acc' l'
  end.

(** A [for] loop that appends one result per element. *)
Fixpoint imap_io {A B} (f : A -> IO B) (l : list A) : IO (list B) :=
  match l with
  | [] => iret []
  | a :: l' => let! b := f a in let! bs := imap_io f l' in iret (b :: bs)
  end.

Definition load_page (url : string) : IO node :=
  fun w =>
    match web w url with
    | Some page => (Ok page, log (LoadPage url) w)
    | None => (Raise ConnectionError, log (LoadPage url) w)
    end.

(** [os.path.isfile] *)
Definition isfile (path : string) : IO bool :=
  fun w => (Ok (bool_decide (path ∈ files w)), w).

Definition download_image (url file_name : string) : IO unit :=
  fun w =>
    match web w url with
    | Some _ =>
        (Ok tt, World (web w) ({[file_name]} ∪ files w)
                      (trace w ++ [Download url file_name]))
    | None => (Raise ConnectionError, log (Download url file_name) w)
    end.

(** ** The image locator *)

(** [find] for the first tag below [n] that passes [p], together with the
    [next_siblings] of the tag's parent.  [after] are the next siblings of
    [n] itself; the document root has none. *)
Fixpoint locate (p : node -> bool) (n : node) (after : list node)
  : option (node * list node) :=
  match n with
  | NavigableString _ => None
  | Tag _ _ _ cs =>
      (fix go (cs : list node) : option (node * list node) :=
         match cs with
         | [] => None
         | c :: rest =>
             if p c then Some (c, after)
             else match locate p c rest with
                  | Some r => Some r
                  | None => go rest
                  end
         end) cs
  end.

Definition ship_profile (n : node) : bool :=
  named "span" n && attr_is "id" "Ship_profile" n.

Definition find_table_wrap (tag : node) : bool :=
  named "div" tag &&
  match tag_cls tag with
  | Some cl =>
      bool_decide ("tabber" ∈ cl) || bool_decide ("citizen-table-wrapper" ∈ cl)
  | None => false
  end.

(** [tag.find_next_sibling(p)] over the next siblings of [tag]. *)
Definition find_next_sibling (p : node -> bool) (next_siblings : list node)
  : option node :=
  head (List.filter p next_siblings).

Definition in_space_article (n : node) : bool :=
  named "article" n &&
  match tag_attrs n !! "data-title" with
  | Some title => in_space_search title
  | None => false
  end.

Definition frameless_figure (n : node) : bool :=
  named "figure" n && attr_is "typeof" "mw:File/Frameless" n.

(** The [try] block of [get_in_space_image_src]: the in-space panel of the
    container that follows the parent of the header, [None] when a step of
    the walk fails. *)
Definition find_img_table (parent_next_siblings : list node)
  : result (option node) :=
  try_except
    (match find_next_sibling find_table_wrap parent_next_siblings with
     | None => Raise AttributeError
     | Some wrap => Ok (find in_space_article wrap)
     end)
    AttributeError (Ok None).

(** One turn of the loop over the figures. *)
Definition media_src (element : node) : IO string :=
  let! href := lift (getitem (find (named "a") element) "href") in
  let media_page_url := STAR_CITIZEN_WIKI_ROOT ++ href in
  let! media_page := load_page media_page_url in
  lift (getitem (find (named_class "a" "internal") media_page) "href").

(** The result is [None] (Python's [None]) or the list of sources. *)
Definition get_in_space_image_src (ship_page : node)
  : IO (option (list string)) :=
  match locate ship_profile ship_page [] with
  | None => iret None
  | Some (ship_profile_header, parent_next_siblings) =>
      let! img_table := lift (find_img_table parent_next_siblings) in
      match img_table with
      | Some img_table =>
          let figure_elements := find_all frameless_figure img_table in
          let! srcs := imap_io media_src figure_elements in
          iret (Some srcs)
      | None => iret (Some [])
      end
  end.

(** ** Classification and download *)

(** The image table under construction: one column of [n_ships] cells per
    key. *)
Definition img_data_init (n_ships : nat) : gmap string (list (option string)) :=
  list_to_map
    [ ("Name", replicate n_ships None);
      ("Isometric", replicate n_ships None);
      ("Above", replicate n_ships None);
      ("Port", replicate n_ships None);
      ("Front", replicate n_ships None);
      ("Rear", replicate n_ships None);
      ("Below", replicate n_ships None) ].

(** [img_data[key][idx] = v]: a [KeyError] when [key] is not a column, an
    [IndexError] when the column has no cell [idx]. *)
Definition set_cell (key : string) (idx : nat) (v : string)
    (img_data : gmap string (list (option string)))
  : result (gmap string (list (option string))) :=
  match img_data !! key with
  | Some column =>
      if decide (idx < length column)
      then Ok (<[key := <[idx := Some v]> column]> img_data)
      else Raise IndexError
  | None => Raise KeyError
  end.

(** The body of the loop over the images of one ship. *)
Definition classify_image (name : string) (idx : nat) (overwrite : bool)
    (img_srcs : list string)
    (img_data : gmap string (list (option string)))
    (img : string * string)
  : IO (gmap string (list (option string))) :=
  let (img_path, img_src) := img in
  match view_search img_path with
  | Some view_match =>
      let view := view_fault_tolerance view_match in
      let! img_data :=
        on_exn KeyError
               (lift (set_cell view idx (basename img_path) img_data))
               (emit (Print (name :: view_match :: img_srcs))) in
      let! present := isfile img_path in
      if overwrite || negb present
      then let! _ := download_image img_src img_path in iret img_data
      else iret img_data
  | None => iret img_data
  end.

(** The body of the loop over the ships; [ship] is the pair of the index
    value [name] and the cell [ship["Wiki"]]. *)
Definition visit_ship (destination : string) (overwrite : bool)
    (img_data : gmap string (list (option string)))
    (row : nat * (string * string))
  : IO (gmap string (list (option string))) :=
  let '(idx, (name, wiki)) := row in
  let! img_data := lift (set_cell "Name" idx name img_data) in
  let! img_srcs :=
    on_error (let! page := load_page wiki in get_in_space_image_src page)
             (emit (Print ["Problem with"; wiki])) in
  match img_srcs with
  | Some (src :: srcs) =>
      let img_srcs := src :: srcs in
      let img_paths :=
        (fun img_src => path_join destination (basename img_src)) <$> img_srcs in
      ifold (classify_image name idx overwrite img_srcs) img_data
            (zip img_paths img_srcs)
  | _ => iret img_data
  end.

(** [ships_data] holds, per ship and in table order, the index value and
    the [Wiki] cell: the parts of the data frame that are read.  The result
    is the mapping the image data frame is built from. *)
Definition download_images (ships_data : list (string * string))
    (destination : string) (overwrite : bool)
  : IO (gmap string (list (option string))) :=
  let destination := "data/images" in
  let! _ := emit (Makedirs destination) in
  let n_ships := length ships_data in
  ifold (visit_ship destination overwrite) (img_data_init n_ships)
        (zip (seq 0 n_ships) ships_data).

(** ** The listing page *)



(** * Vocabulary of the properties *)

(** The computation returns, it does not raise. *)
Definition is_ok {A} (r : result A) : Prop := exists a, r = Ok a.

(** The two node lists [extract_rows] asks the table for. *)
Definition odd_nodes (table : node) : list node :=
  find_all (named_class "tr" "row-odd") table.

Definition even_nodes (table : node) : list node :=
  find_all (named_class "tr" "row-even") table.

(** Every row of the table extracts without an exception. *)
Definition rows_extract {F} (table : node) (columns : columns_def F) : Prop :=
  Forall (fun r => is_ok (extract_row r columns))
         (even_nodes table ++ odd_nodes table).

(** The optional and the required numeric columns: the class of the cell
    and the extractor that reads it. *)
Definition optional_cells (F : Type) (float_of_str : string -> option F)
  : list (string * (node -> result (value F))) :=
  [ ("Max-speed", extract_cell_Max_speed F float_of_str);
    ("SCM-speed", extract_cell_SCM_speed F float_of_str);
    ("0-SCM-time", extract_cell_0_SCM_time F float_of_str) ].

Definition required_cells (F : Type) (float_of_str : string -> option F)
  : list (string * (node -> result (value F))) :=
  [ ("Length", extract_cell_Length F float_of_str);
    ("Width", extract_cell_Width F float_of_str);
    ("Height", extract_cell_Height F float_of_str) ].

(** The image downloads of a trace: source address and destination file. *)
Definition downloads (t : list event) : list (string * string) :=
  flat_map (fun e => match e with
                     | Download url file_name => [(url, file_name)]
                     | _ => []
                     end) t.

(** The lines printed in a trace. *)
Definition printed (t : list event) : list (list string) :=
  flat_map (fun e => match e with
                     | Print words => [words]
                     | _ => []
                     end) t.

(** From [w] to [w']: the site is the same, no file went away, the trace
    grew by [t]. *)
Definition extends (w w' : world) (t : list event) : Prop :=
  web w' = web w /\ files w ⊆ files w' /\ trace w' = (trace w ++ t)%list.

(** A run from [w] to [w'] that fetched no image whose file was on disk at
    [w]. *)
Definition no_refetch (w w' : world) : Prop :=
  exists t, extends w w' t
            /\ forall url file_name,
                 (url, file_name) ∈ downloads t -> file_name ∉ files w.

(** A condition [okd] on image downloads, as a condition on events: every
    other event passes. *)
Definition ok_event (okd : world -> string -> string -> Prop)
    (w : world) (e : event) : Prop :=
  match e with
  | Download url file_name => okd w url file_name
  | _ => True
  end.

(** From every world, [c] only adds events to the trace, keeps the site
    and the files there are, and every download it makes meets [okd] at
    the world it started from. *)
Definition emits {A} (okd : world -> string -> string -> Prop) (c : IO A)
  : Prop :=
  forall w, exists t, extends w (c w).2 t /\ Forall (ok_event okd w) t.

(** The keys of the image record: the ship name and the six views. *)
Definition view_categories : list string :=
  ["Isometric"; "Above"; "Port"; "Front"; "Rear"; "Below"].

Definition img_data_keys : list string := "Name" :: view_categories.

(** Strings of letters, strings without a dot, strings without a slash. *)
Fixpoint all_alpha (s : string) : bool :=
  match s with
  | EmptyString => true
  | String c s' => is_alpha c && all_alpha s'
  end.

Fixpoint no_dot (s : string) : bool :=
  match s with
  | EmptyString => true
  | String c s' => negb (ascii_eqb c ".") && no_dot s'
  end.

Fixpoint no_slash (s : string) : bool :=
  match s with
  | EmptyString => true
  | String c s' => negb (ascii_eqb c "/") && no_slash s'
  end.

(** The two extensions the view pattern looks for. *)
Definition image_ext (ext : string) : Prop := ext = ".jpg" \/ ext = ".png".

(** The address of the media page of a figure: the wiki root followed by
    the [href] of the first link of the figure. *)
Definition media_url (element : node) : result string :=
  let? href := getitem (find (named "a") element) "href" in
  Ok (STAR_CITIZEN_WIKI_ROOT ++ href).

(** A figure resolves to [load], a media page address and an image source:
    the address is that of the figure's media page, the site answers it,
    and the source is the [href] of the first [a.internal] of the answer. *)
Definition resolves (w : world) (element : node) (load : string * string)
  : Prop :=
  exists media_page,
    media_url element = Ok load.1
    /\ web w load.1 = Some media_page
    /\ getitem (find (named_class "a" "internal") media_page) "href"
       = Ok load.2.

(** The ways a turn of the figure loop fails, with the exception and the
    page loads made before it. *)
Inductive fails (w : world) (element : node) : exn -> list event -> Prop :=
| fails_link (e : exn) :
    getitem (find (named "a") element) "href" = Raise e ->
    fails w element e []
| fails_load (url : string) :
    media_url element = Ok url ->
    web w url = None ->
    fails w element ConnectionError [LoadPage url]
| fails_source (url : string) (media_page : node) (e : exn) :
    media_url element = Ok url ->
    web w url = Some media_page ->
    getitem (find (named_class "a" "internal") media_page) "href" = Raise e ->
    fails w element e [LoadPage url].

(** The shape of the image record of [n_ships] ships: its columns are the
    seven keys, and every column has one cell per ship. *)
Definition record_shape (n_ships : nat)
    (img_data : gmap string (list (option string))) : Prop :=
  (forall key, is_Some (img_data !! key) <-> key ∈ img_data_keys)
  /\ (forall key column,
        img_data !! key = Some column -> length column = n_ships).

(** The first [k] cells of the [Name] column are filled in. *)
Definition names_filled (k : nat)
    (img_data : gmap string (list (option string))) : Prop :=
  exists column,
    img_data !! "Name" = Some column
    /\ forall i, i < k -> exists v, column !! i = Some (Some v).

(** [c] can be replayed: a run of [c] that ended well ends the same way,
    without a download and without a change to the files, from every world
    with the same site that has the files the run left.  (And [c] only
    adds to the trace and to the files.) *)
Definition replays {A} (c : IO A) : Prop :=
  emits (fun _ _ _ => True) c
  /\ forall w1 a w1' w2,
       c w1 = (Ok a, w1') ->
       web w2 = web w1 ->
       files w1' ⊆ files w2 ->
       exists t,
         c w2 = (Ok a, World (web w2) (files w2) (trace w2 ++ t))
         /\ downloads t = [].

(** What a row of the listing has to carry for its ten cells to extract:
    a cell of class [c] whose first link has the attribute [k]; a cell
    with some content; a cell whose [data-sort-value] is a number; a cell
    whose [data-sort-value], when it has one, is a number. *)
Definition has_link (c k : string) (row_element : node) : Prop :=
  exists cell a v,
    td c row_element = Some cell
    /\ find (named "a") cell = Some a
    /\ tag_attrs a !! k = Some v.

Definition has_content (c : string) (row_element : node) : Prop :=
  exists cell, td c row_element = Some cell /\ tag_contents cell <> [].

Definition has_number {F} (float_of_str : string -> option F) (c : string)
    (row_element : node) : Prop :=
  exists cell v,
    td c row_element = Some cell
    /\ tag_attrs cell !! "data-sort-value" = Some v
    /\ is_Some (float_of_str v).

Definition has_optional_number {F} (float_of_str : string -> option F)
    (c : string) (row_element : node) : Prop :=
  exists cell,
    td c row_element = Some cell
    /\ forall v, tag_attrs cell !! "data-sort-value" = Some v ->
                 is_Some (float_of_str v).

Definition well_formed_row {F} (float_of_str : string -> option F)
    (row_element : node) : Prop :=
  has_link "Name" "title" row_element
  /\ has_link "Name" "href" row_element
  /\ has_link "Manufacturer" "title" row_element
  /\ has_content "Size" row_element
  /\ has_number float_of_str "Length" row_element
  /\ has_number float_of_str "Width" row_element
  /\ has_number float_of_str "Height" row_element
  /\ has_optional_number float_of_str "Max-speed" row_element
  /\ has_optional_number float_of_str "SCM-speed" row_element
  /\ has_optional_number float_of_str "0-SCM-time" row_element.

(** ** Sample documents *)

(** A tag with a [class] attribute, and one without. *)
Definition elem (nm : string) (classes : list string)
    (attributes : list (string * string)) (contents : list node) : node :=
  Tag nm (Some classes) (list_to_map attributes) contents.

Definition elem0 (nm : string) (attributes : list (string * string))
    (contents : list node) : node :=
  Tag nm None (list_to_map attributes) contents.

(** A table row of class [c] whose only cell names the ship [nm]. *)
Definition name_row (c nm : string) : node :=
  elem "tr" [c] []
    [elem "td" ["Name"] [] [elem0 "a" [("title", nm); ("href", "/" ++ nm)] []]].

Definition name_column : columns_def Z := [("Name", extract_cell_Name Z)].

(** Two odd rows around one even row. *)
Definition table_odd_even_odd : node :=
  elem "table" ["template-pledgevehiclelist"] []
    [name_row "row-odd" "Aurora"; name_row "row-even" "Bengal";
     name_row "row-odd" "Carrack"].

(** One odd row and two even rows. *)
Definition table_odd_even_even : node :=
  elem "table" ["template-pledgevehiclelist"] []
    [name_row "row-odd" "Aurora"; name_row "row-even" "Bengal";
     name_row "row-even" "Carrack"].

(** A row whose speed cell carries no sort value, and a row whose length
    cell carries one. *)
Definition row_without_speed : node :=
  elem "tr" ["row-odd"] [] [elem "td" ["Max-speed"] [] [NavigableString "-"]].

Definition row_with_length : node :=
  elem "tr" ["row-odd"] []
    [elem "td" ["Length"] [("data-sort-value", "12.5")] [NavigableString "12.5 m"]].

Definition row_without_length : node :=
  elem "tr" ["row-odd"] [] [elem "td" ["Length"] [] [NavigableString "?"]].

(** A stand-in for [float] on the samples: only ["12.5"] is a number, and
    it is kept as the pair of its digits. *)
Definition sample_float (s : string) : option (Z * Z) :=
  if decide (s = "12.5") then Some (12%Z, 5%Z) else None.

(** A figure of the in-space panel, linking to the media page at
    [href]. *)
Definition sample_figure (href : string) : node :=
  elem0 "figure" [("typeof", "mw:File/Frameless")]
    [elem0 "a" [("href", href)] [elem0 "img" [] []]].

(** A detail page: the header, then a tabbed container whose only panel
    carries [title] and one figure. *)
Definition sample_panel (title : string) : node :=
  elem0 "article" [("data-title", title)]
    [sample_figure "/File:Aurora_Front.jpg"].

Definition sample_wrap (title : string) : node :=
  elem "div" ["tabber"] [] [sample_panel title].

Definition sample_header : node :=
  elem "span" ["mw-headline"] [("id", "Ship_profile")]
    [NavigableString "Ship profile"].

Definition detail_page (title : string) : node :=
  elem0 "html" []
    [ elem0 "h2" [] [sample_header];
      NavigableString " ";
      sample_wrap title ].

(** A detail page with the header and no container after it, and one with
    no header at all. *)
Definition detail_page_no_wrap : node :=
  elem0 "html" []
    [ elem0 "h2" [] [sample_header];
      elem0 "p" [] [NavigableString "No images yet."] ].

Definition detail_page_no_header : node :=
  elem0 "html" [] [elem0 "p" [] [NavigableString "A ground vehicle."]].

(** A world with nothing on the web and nothing on disk. *)
Definition empty_world : world := World (fun _ => None) ∅ [].

(** A detail page whose in-space panel shows the figures at [hrefs], and
    the media page that names the file at [src]. *)
Definition gallery_page (hrefs : list string) : node :=
  elem0 "html" []
    [ elem0 "h2" [] [sample_header];
      elem "div" ["citizen-table-wrapper"] []
        [elem0 "article" [("data-title", "In-space")]
               (sample_figure <$> hrefs)] ].

Definition media_page (src : string) : node :=
  elem0 "html" [] [elem "a" ["internal"] [("href", src)] [NavigableString "Original file"]].

(** A site with three ships: the Aurora has a front view, the file of the
    only image of the Bengal ends in the token "Name", the only image of
    the Carrack is numbered. *)
Definition sample_site : gmap string node :=
  list_to_map
    [ ("https://starcitizen.tools/Aurora", gallery_page ["/File:Aurora_Front.jpg"]);
      ("https://starcitizen.tools/File:Aurora_Front.jpg",
       media_page "https://media.starcitizen.tools/a/Aurora_Front.jpg");
      ("https://media.starcitizen.tools/a/Aurora_Front.jpg", NavigableString "");
      ("https://starcitizen.tools/Bengal", gallery_page ["/File:Bengal_Name.jpg"]);
      ("https://starcitizen.tools/File:Bengal_Name.jpg",
       media_page "https://media.starcitizen.tools/b/Bengal_Name.jpg");
      ("https://media.starcitizen.tools/b/Bengal_Name.jpg", NavigableString "");
      ("https://starcitizen.tools/Carrack", gallery_page ["/File:Carrack_01.jpg"]);
      ("https://starcitizen.tools/File:Carrack_01.jpg",
       media_page "https://media.starcitizen.tools/c/Carrack_01.jpg");
      ("https://media.starcitizen.tools/c/Carrack_01.jpg", NavigableString "") ].

Definition sample_world (on_disk : list string) : world :=
  World (fun url => sample_site !! url) (list_to_set on_disk) [].

Definition aurora : list (string * string) :=
  [("Aurora", "https://starcitizen.tools/Aurora")].

Definition bengal : list (string * string) :=
  [("Bengal", "https://starcitizen.tools/Bengal")].

Definition carrack : list (string * string) :=
  [("Carrack", "https://starcitizen.tools/Carrack")].

(** A frameless figure that links nowhere, and a detail page whose
    in-space panel shows the given figures. *)
Definition bare_figure : node :=
  elem0 "figure" [("typeof", "mw:File/Frameless")] [elem0 "img" [] []].

Definition gallery_of (figures : list node) : node :=
  elem0 "html" []
    [ elem0 "h2" [] [sample_header];
      elem "div" ["tabber"] []
        [elem0 "article" [("data-title", "In space")] figures] ].

(** A row of the listing with its ten cells; two of the optional cells
    carry no sort value. *)
Definition full_row : node :=
  elem "tr" ["row-odd"] []
    [ elem "td" ["Name"] []
        [elem0 "a" [("title", "Aurora"); ("href", "/Aurora")] []];
      elem "td" ["Manufacturer"] [] [elem0 "a" [("title", "RSI")] []];
      elem "td" ["Size"] [] [NavigableString "Small"];
      elem "td" ["Length"] [("data-sort-value", "12.5")] [];
      elem "td" ["Width"] [("data-sort-value", "12.5")] [];
      elem "td" ["Height"] [("data-sort-value", "12.5")] [];
      elem "td" ["Max-speed"] [("data-sort-value", "12.5")] [];
      elem "td" ["SCM-speed"] [] [NavigableString "-"];
      elem "td" ["0-SCM-time"] [] [] ].

(** * Properties *)

(** ** The error monad *)

Lemma rmap_length {A B} (f : A -> result B) l bs :
  rmap f l = Ok bs -> length bs = length l.
Proof.
  revert bs. induction l as [|a l IH]; simpl; intros bs H.
  - by inversion H.
  - destruct (f a); simpl in H; [|done].
    destruct (rmap f l); simpl in H; [|done].
    inversion H; subst. simpl. f_equal. by apply IH.
Qed.

Lemma rmap_lookup {A B} (f : A -> result B) l bs i a :
  rmap f l = Ok bs -> l !! i = Some a ->
  exists b, f a = Ok b /\ bs !! i = Some b.
Proof.
  revert bs i. induction l as [|x l IH]; simpl; intros bs i H Hi; [done|].
  destruct (f x) as [b|] eqn:Hx; simpl in H; [|done].
  destruct (rmap f l) as [bs'|]; simpl in H; [|done].
  inversion H; subst. destruct i as [|i]; simpl in *.
  - inversion Hi; subst. eauto.
  - by apply IH.
Qed.

Lemma rmap_total {A B} (f : A -> result B) l :
  Forall (fun a => is_ok (f a)) l -> is_ok (rmap f l).
Proof.
  induction 1 as [|a l [b Hb] _ [bs Hbs]]; simpl.
  - by eexists.
  - rewrite Hb, Hbs. by eexists.
Qed.

(** ** Slices *)

Lemma assign_from_length {A} (vals : list A) i l :
  length (assign_from i vals l) = length l.
Proof.
  revert i l. induction vals as [|v vs IH]; intros i l; simpl; [done|].
  by rewrite IH, length_insert.
Qed.

(** A position that is none of [i, i + 2, ...] keeps its value. *)
Lemma assign_from_lookup_other {A} (vals : list A) i l j :
  (forall m, j <> i + 2 * m) -> assign_from i vals l !! j = l !! j.
Proof.
  revert i l. induction vals as [|v vs IH]; intros i l Hj; simpl; [done|].
  rewrite IH.
  - apply list_lookup_insert_ne. specialize (Hj 0). lia.
  - intros m. specialize (Hj (S m)). lia.
Qed.

(** Position [i + 2 * k] receives the [k]-th value. *)
Lemma assign_from_lookup_hit {A} (vals : list A) i l k v :
  vals !! k = Some v -> i + 2 * k < length l ->
  assign_from i vals l !! (i + 2 * k) = Some v.
Proof.
  revert i l k. induction vals as [|x vs IH]; intros i l k Hk Hlen; [done|].
  destruct k as [|k].
  - injection Hk as ->. replace (i + 2 * 0) with i in * by lia.
    cbn [assign_from]. rewrite assign_from_lookup_other.
    + apply list_lookup_insert_eq. lia.
    + intros m. lia.
  - replace (i + 2 * S k) with (i + 2 + 2 * k) in * by lia.
    cbn [assign_from]. apply IH; [done|]. rewrite length_insert. lia.
Qed.

Lemma slice_len_0 n : slice_len 0 n = (n + 1) / 2.
Proof. unfold slice_len. rewrite Nat.div2_div. f_equal. lia. Qed.

Lemma slice_len_1 n : slice_len 1 n = n / 2.
Proof.
  unfold slice_len. rewrite Nat.div2_div. destruct n as [|n]; [done|].
  f_equal. lia.
Qed.

(** The two slice assignments of [extract_rows] go through exactly when
    the odd rows are as many as the even rows, or one more. *)
Lemma slices_fit (o e : nat) :
  o = slice_len 0 (e + o) /\ e = slice_len 1 (e + o) <-> o = e \/ o = S e.
Proof.
  rewrite slice_len_0, slice_len_1.
  pose proof (Nat.div_mod_eq (e + o + 1) 2).
  pose proof (Nat.mod_upper_bound (e + o + 1) 2).
  pose proof (Nat.div_mod_eq (e + o) 2).
  pose proof (Nat.mod_upper_bound (e + o) 2).
  lia.
Qed.

(** ** Row reconstruction *)

Section RowReconstruction.

Context {F : Type}.
Variable table : node.
Variable columns : columns_def F.

(** Once both comprehensions went through, what is left of [extract_rows]
    is the two slice assignments. *)
Lemma extract_rows_slices :
  rows_extract table columns ->
  exists ev od,
    rmap (fun r => extract_row r columns) (even_nodes table) = Ok ev /\
    rmap (fun r => extract_row r columns) (odd_nodes table) = Ok od /\
    extract_rows (Some table) columns =
      rbind (slice_assign 0 (replicate (length ev + length od) None)
                          (Some <$> od))
            (fun rows => slice_assign 1 rows (Some <$> ev)).
Proof.
  intros Hall. apply Forall_app in Hall as [Hev Hod].
  destruct (rmap_total _ _ Hev) as [ev Hev'].
  destruct (rmap_total _ _ Hod) as [od Hod'].
  exists ev, od. split_and!; [done..|].
  unfold extract_rows. fold (even_nodes table) (odd_nodes table).
  rewrite Hev', Hod'. cbn [rbind].
  destruct (slice_assign 0 _ _) as [rows|]; cbn [rbind]; [|done].
  by destruct (slice_assign 1 _ _).
Qed.

Lemma extract_rows_alternates :
  rows_extract table columns ->
  length (odd_nodes table) = length (even_nodes table)
  \/ length (odd_nodes table) = S (length (even_nodes table)) ->
  exists rows,
    extract_rows (Some table) columns = Ok rows /\
    length rows = length (odd_nodes table) + length (even_nodes table) /\
    (forall i r, odd_nodes table !! i = Some r ->
       exists data, extract_row r columns = Ok data
                    /\ rows !! (2 * i) = Some (Some data)) /\
    (forall i r, even_nodes table !! i = Some r ->
       exists data, extract_row r columns = Ok data
                    /\ rows !! (2 * i + 1) = Some (Some data)).
Proof.
  intros Hall Hcount.
  destruct (extract_rows_slices Hall) as (ev & od & Hev & Hod & ->).
  pose proof (rmap_length _ _ _ Hev) as Lev.
  pose proof (rmap_length _ _ _ Hod) as Lod.
  rewrite <- Lev, <- Lod in *.
  apply slices_fit in Hcount as [Ho He].
  unfold slice_assign.
  rewrite length_fmap, length_replicate, decide_True by done. cbn [rbind].
  rewrite length_fmap, assign_from_length, length_replicate,
    decide_True by done.
  eexists. split; [done|].
  split; [rewrite !assign_from_length, length_replicate; lia|].
  split; intros i r Hi.
  - destruct (rmap_lookup _ _ _ _ _ Hod Hi) as (data & Hdata & Hlk).
    exists data. split; [done|].
    rewrite assign_from_lookup_other by (intros m; lia).
    apply (assign_from_lookup_hit _ 0).
    + by rewrite list_lookup_fmap, Hlk.
    + apply lookup_lt_Some in Hlk. rewrite length_replicate.
      rewrite slice_len_0 in Ho. rewrite slice_len_1 in He.
      pose proof (Nat.div_mod_eq (length ev + length od + 1) 2).
      pose proof (Nat.mod_upper_bound (length ev + length od + 1) 2).
      pose proof (Nat.div_mod_eq (length ev + length od) 2).
      pose proof (Nat.mod_upper_bound (length ev + length od) 2).
      lia.
  - destruct (rmap_lookup _ _ _ _ _ Hev Hi) as (data & Hdata & Hlk).
    exists data. split; [done|].
    replace (2 * i + 1) with (1 + 2 * i) by lia.
    apply assign_from_lookup_hit.
    + by rewrite list_lookup_fmap, Hlk.
    + apply lookup_lt_Some in Hlk.
      rewrite assign_from_length, length_replicate.
      rewrite slice_len_0 in Ho. rewrite slice_len_1 in He.
      pose proof (Nat.div_mod_eq (length ev + length od + 1) 2).
      pose proof (Nat.mod_upper_bound (length ev + length od + 1) 2).
      pose proof (Nat.div_mod_eq (length ev + length od) 2).
      pose proof (Nat.mod_upper_bound (length ev + length od) 2).
      lia.
Qed.

Lemma extract_rows_misfit :
  rows_extract table columns ->
  ~ (length (odd_nodes table) = length (even_nodes table)
     \/ length (odd_nodes table) = S (length (even_nodes table))) ->
  extract_rows (Some table) columns = Raise ValueError.
Proof.
  intros Hall Hcount.
  destruct (extract_rows_slices Hall) as (ev & od & Hev & Hod & ->).
  pose proof (rmap_length _ _ _ Hev) as Lev.
  pose proof (rmap_length _ _ _ Hod) as Lod.
  rewrite <- Lev, <- Lod in *.
  rewrite <- slices_fit in Hcount.
  unfold slice_assign. rewrite length_fmap, length_replicate.
  destruct (decide (length od = _)) as [Ho|]; [|done]. cbn [rbind].
  rewrite length_fmap, assign_from_length, length_replicate.
  destruct (decide (length ev = _)) as [He|]; [|done].
  by destruct Hcount.
Qed.

End RowReconstruction.

(** C1 (as amended).  When every row extracts: a table with as many
    odd-class rows as even-class rows, or one more, yields the merged
    sequence, whose length is the sum of both counts, whose position [2i]
    holds the data of the [i]-th odd-row node and whose position [2i+1]
    holds the data of the [i]-th even-row node; with any other pair of
    counts, one more even row than odd rows among them, the slice
    assignment raises [ValueError]. *)
Theorem extract_rows_reconstruction {F} (table : node) (columns : columns_def F) :
  rows_extract table columns ->
  (length (odd_nodes table) = length (even_nodes table)
   \/ length (odd_nodes table) = S (length (even_nodes table)) ->
   exists rows,
     extract_rows (Some table) columns = Ok rows /\
     length rows = length (odd_nodes table) + length (even_nodes table) /\
     (forall i r, odd_nodes table !! i = Some r ->
        exists data, extract_row r columns = Ok data
                     /\ rows !! (2 * i) = Some (Some data)) /\
     (forall i r, even_nodes table !! i = Some r ->
        exists data, extract_row r columns = Ok data
                     /\ rows !! (2 * i + 1) = Some (Some data)))
  /\
  (~ (length (odd_nodes table) = length (even_nodes table)
      \/ length (odd_nodes table) = S (length (even_nodes table))) ->
   extract_rows (Some table) columns = Raise ValueError).
Proof.
  intros Hall. split.
  - by apply extract_rows_alternates.
  - by apply extract_rows_misfit.
Qed.

Lemma sample_rows_extract_3 : rows_extract table_odd_even_odd name_column.
Proof. vm_compute. repeat constructor; by eexists. Defined.

Lemma extract_rows_reconstruction_witness :
  rows_extract table_odd_even_odd name_column /\
  exists rows,
    extract_rows (Some table_odd_even_odd) name_column = Ok rows /\
    length rows = 3 /\
    rows !! 0 = Some (Some [VStr "Aurora"]) /\
    rows !! 1 = Some (Some [VStr "Bengal"]) /\
    rows !! 2 = Some (Some [VStr "Carrack"]).
Proof.
  split; [exact sample_rows_extract_3|].
  destruct (extract_rows_reconstruction table_odd_even_odd name_column
              sample_rows_extract_3) as [Hfit _].
  destruct Hfit as (rows & Hrows & Hlen & _ & _).
  - right. vm_compute. reflexivity.
  - exists rows. split; [exact Hrows|].
    vm_compute in Hrows. injection Hrows as <-.
    vm_compute. repeat split.
Defined.

(** C1, as stated, fails: with one odd-class row and two even-class rows
    (N and N+1), all of which extract, no sequence is returned. *)
Lemma extract_rows_more_even_rows :
  length (odd_nodes table_odd_even_even) = 1 /\
  length (even_nodes table_odd_even_even) = 2 /\
  rows_extract table_odd_even_even name_column /\
  extract_rows (Some table_odd_even_even) name_column = Raise ValueError /\
  ~ (exists rows, extract_rows (Some table_odd_even_even) name_column = Ok rows).
Proof.
  assert (extract_rows (Some table_odd_even_even) name_column
          = Raise ValueError) as Hraise by (vm_compute; reflexivity).
  split_and!; try (vm_compute; reflexivity).
  - vm_compute. repeat constructor; by eexists.
  - intros [rows Hrows]. rewrite Hraise in Hrows. discriminate.
Qed.

(** ** Numeric cells *)

Section NumericCells.

Variable F : Type.
Variable float_of_str : string -> option F.

(** C5.  An optional numeric cell (Max speed, SCM speed, 0-SCM time) that
    is present but has no [data-sort-value] attribute makes its extractor
    return the sentinel [-1]; nothing is raised. *)
Theorem optional_cell_sentinel (c : string) (extractor : node -> result (value F))
    (row_element cell : node) :
  (c, extractor) ∈ optional_cells F float_of_str ->
  td c row_element = Some cell ->
  tag_attrs cell !! "data-sort-value" = None ->
  extractor row_element = Ok (VInt (-1)).
Proof.
  intros Hin Htd Hattr. unfold optional_cells in Hin.
  repeat (apply elem_of_cons in Hin as [Hin|Hin];
          [injection Hin as -> ->|]);
    try (by apply elem_of_nil in Hin).
  - unfold extract_cell_Max_speed, getitem. by rewrite Htd, Hattr.
  - unfold extract_cell_SCM_speed, getitem. by rewrite Htd, Hattr.
  - unfold extract_cell_0_SCM_time, getitem. by rewrite Htd, Hattr.
Qed.

(** C6.  A required numeric cell (Length, Width, Height) without the
    [data-sort-value] attribute makes its extractor raise [KeyError]; with
    the attribute, the result is [float] of the attribute: the float it
    denotes, or the [ValueError] of [float]. *)
Theorem required_cell_raises (c : string) (extractor : node -> result (value F))
    (row_element cell : node) :
  (c, extractor) ∈ required_cells F float_of_str ->
  td c row_element = Some cell ->
  (tag_attrs cell !! "data-sort-value" = None ->
   extractor row_element = Raise KeyError)
  /\
  (forall v, tag_attrs cell !! "data-sort-value" = Some v ->
   extractor row_element =
     match float_of_str v with
     | Some f => Ok (VFloat f)
     | None => Raise ValueError
     end).
Proof.
  intros Hin Htd. unfold required_cells in Hin.
  repeat (apply elem_of_cons in Hin as [Hin|Hin];
          [injection Hin as -> ->|]);
    try (by apply elem_of_nil in Hin).
  - unfold extract_cell_Length, getitem, float. rewrite Htd.
    split; [by intros ->|]. intros v ->. simpl. by destruct (float_of_str v).
  - unfold extract_cell_Width, getitem, float. rewrite Htd.
    split; [by intros ->|]. intros v ->. simpl. by destruct (float_of_str v).
  - unfold extract_cell_Height, getitem, float. rewrite Htd.
    split; [by intros ->|]. intros v ->. simpl. by destruct (float_of_str v).
Qed.

End NumericCells.

Lemma optional_cell_sentinel_witness :
  extract_cell_Max_speed (Z * Z) sample_float row_without_speed
  = Ok (VInt (-1)).
Proof.
  apply (optional_cell_sentinel (Z * Z) sample_float "Max-speed" _
           row_without_speed
           (elem "td" ["Max-speed"] [] [NavigableString "-"])).
  - apply list_elem_of_here.
  - vm_compute. reflexivity.
  - vm_compute. reflexivity.
Defined.

Lemma required_cell_raises_witness :
  extract_cell_Length (Z * Z) sample_float row_without_length = Raise KeyError
  /\ extract_cell_Length (Z * Z) sample_float row_with_length
     = Ok (VFloat (12%Z, 5%Z)).
Proof.
  split.
  - apply (required_cell_raises (Z * Z) sample_float "Length" _
             row_without_length
             (elem "td" ["Length"] [] [NavigableString "?"])).
    + apply list_elem_of_here.
    + vm_compute. reflexivity.
    + vm_compute. reflexivity.
  - apply (proj2 (required_cell_raises (Z * Z) sample_float "Length" _
             row_with_length
             (elem "td" ["Length"] [("data-sort-value", "12.5")]
                   [NavigableString "12.5 m"])
             (list_elem_of_here _ _) eq_refl) "12.5").
    vm_compute. reflexivity.
Defined.

(** ** Typo correction *)

Lemma view_fault_tolerance_other (s : string) :
  s <> "Isometirc" -> s <> "Isometrric" -> view_fault_tolerance s = s.
Proof.
  intros H1 H2. unfold view_fault_tolerance.
  by rewrite !decide_False.
Qed.

Lemma view_fault_tolerance_cases (s : string) :
  view_fault_tolerance s = "Isometric" \/ view_fault_tolerance s = s.
Proof.
  unfold view_fault_tolerance. repeat case_decide; auto.
Qed.

(** C7.  Typo correction is idempotent, leaves each of the six canonical
    tokens as it is, sends the two misspellings to "Isometric" and gives
    back every other string unchanged. *)
Theorem view_fault_tolerance_spec :
  (forall s, view_fault_tolerance (view_fault_tolerance s)
             = view_fault_tolerance s)
  /\ (forall v, v ∈ ["Isometric"; "Above"; "Port"; "Front"; "Rear"; "Below"] ->
                view_fault_tolerance v = v)
  /\ view_fault_tolerance "Isometirc" = "Isometric"
  /\ view_fault_tolerance "Isometrric" = "Isometric"
  /\ (forall s, s <> "Isometirc" -> s <> "Isometrric" ->
                view_fault_tolerance s = s).
Proof.
  split_and!.
  - intros s. destruct (view_fault_tolerance_cases s) as [H|H];
      rewrite H; [done | exact H].
  - intros v Hv.
    repeat (apply elem_of_cons in Hv as [->|Hv]; [done|]).
    by apply elem_of_nil in Hv.
  - done.
  - done.
  - apply view_fault_tolerance_other.
Qed.

Lemma view_fault_tolerance_spec_witness :
  view_fault_tolerance "Front" = "Front"
  /\ view_fault_tolerance "Name" = "Name".
Proof.
  destruct view_fault_tolerance_spec as (_ & Hcanon & _ & _ & Hother).
  split.
  - apply Hcanon. do 3 apply list_elem_of_further. apply list_elem_of_here.
  - apply Hother; discriminate.
Defined.

(** ** Searching a document *)

(** Induction on documents, with the hypothesis for every child. *)
Lemma node_nested_ind (P : node -> Prop) :
  (forall s, P (NavigableString s)) ->
  (forall nm c a cs, Forall P cs -> P (Tag nm c a cs)) ->
  forall n, P n.
Proof.
  intros Hstr Htag. fix IH 1. intros [s|nm c a cs].
  - apply Hstr.
  - apply Htag. induction cs as [|x cs IHcs]; constructor; [apply IH | apply IHcs].
Qed.

Lemma head_filter_app {A} (p : A -> bool) (l1 l2 : list A) :
  head (List.filter p (l1 ++ l2)) =
  match head (List.filter p l1) with
  | Some x => Some x
  | None => head (List.filter p l2)
  end.
Proof.
  rewrite List.filter_app. by destruct (List.filter p l1).
Qed.

(** [locate] finds the tag that [find] finds. *)
Lemma locate_find (p : node -> bool) (n : node) :
  forall after, fst <$> locate p n after = find p n.
Proof.
  induction n as [s|nm c a cs IH] using node_nested_ind; intros after; [done|].
  unfold find, find_all. cbn [locate descendants].
  induction IH as [|x cs Hx _ IHcs]; [done|].
  cbn [flat_map]. change (x :: descendants x ++ ?l) with ([x] ++ descendants x ++ l).
  rewrite !head_filter_app. cbn [List.filter].
  destruct (p x); [done|]. cbn [head].
  specialize (Hx cs). unfold find, find_all in Hx.
  destruct (locate p x cs) as [r|]; cbn in Hx; rewrite <- Hx; [done|].
  apply IHcs.
Qed.

Lemma head_filter_elem {A} (p : A -> bool) (l : list A) (x : A) :
  x ∈ l -> p x = true ->
  exists y, head (List.filter p l) = Some y /\ y ∈ l /\ p y = true.
Proof.
  intros Hx Hp. destruct (List.filter p l) as [|y l'] eqn:Hf.
  - assert (In x (List.filter p l)) as Hin
      by (apply List.filter_In; split; [by apply list_elem_of_In | done]).
    rewrite Hf in Hin. destruct Hin.
  - exists y. split; [done|].
    assert (In y (List.filter p l)) as Hin by (rewrite Hf; by left).
    apply List.filter_In in Hin as [Hy Hpy]. split; [by apply list_elem_of_In | done].
Qed.

(** ** The in-space pattern *)

Lemma in_space_search_here (s : string) :
  in_space_match s = true -> in_space_search s = true.
Proof. intros H. destruct s; cbn [in_space_search]; by rewrite H. Qed.

Lemma prefix_app (a b : string) : String.prefix a (a ++ b) = true.
Proof.
  induction a as [|c a IH]; simpl; [by destruct b|].
  destruct (ascii_dec c c); [done|congruence].
Qed.

(** A title that holds "In", a hyphen or a white-space character, and
    "space" matches the pattern, wherever the three stand. *)
Lemma in_space_search_found (pre post : string) (sep : ascii) :
  sep = "-"%char \/ is_space sep = true ->
  in_space_search (pre ++ "In" ++ String sep ("space" ++ post)) = true.
Proof.
  intros Hsep. induction pre as [|c pre IH].
  - apply in_space_search_here.
    change (in_space_match
              (String "I" (String "n" (String sep ("space" ++ post)))) = true).
    unfold in_space_match. rewrite prefix_app. unfold in_space_sep.
    destruct Hsep as [-> | ->]; done.
  - change (in_space_search
              (String c (pre ++ "In" ++ String sep ("space" ++ post))) = true).
    cbn [in_space_search]. rewrite IH. apply orb_true_r.
Qed.

(** ** The image locator *)

(** The [try] block never raises: a failed step gives [None]. *)
Lemma find_img_table_cases (sibs : list node) :
  (find_next_sibling find_table_wrap sibs = None
   /\ find_img_table sibs = Ok None)
  \/ (exists wrap, find_next_sibling find_table_wrap sibs = Some wrap
                   /\ find_img_table sibs = Ok (find in_space_article wrap)).
Proof.
  unfold find_img_table.
  destruct (find_next_sibling find_table_wrap sibs) as [wrap|]; [right|left].
  - by exists wrap.
  - done.
Qed.

(** What [get_in_space_image_src] does once the header is there. *)
Lemma locator_with_header (ship_page header : node) (sibs : list node) (w : world) :
  locate ship_profile ship_page [] = Some (header, sibs) ->
  get_in_space_image_src ship_page w =
    match find_img_table sibs with
    | Ok (Some img_table) =>
        ibind (imap_io media_src (find_all frameless_figure img_table))
              (fun srcs => iret (Some srcs)) w
    | Ok None => (Ok (Some []), w)
    | Raise e => (Raise e, w)
    end.
Proof.
  intros Hloc. unfold get_in_space_image_src. rewrite Hloc.
  unfold ibind at 1. unfold lift.
  by destruct (find_img_table sibs) as [[img_table|]|e].
Qed.

(** C9.  The locator returns [None] exactly when the page has no "Ship
    profile" header (and then touches nothing); with the header, a missing
    container after the header's parent or a container without an in-space
    panel gives the empty list, and no exception. *)
Theorem image_locator_result_shape (ship_page : node) (w : world) :
  ((get_in_space_image_src ship_page w).1 = Ok None
   <-> find ship_profile ship_page = None)
  /\ (find ship_profile ship_page = None ->
      get_in_space_image_src ship_page w = (Ok None, w))
  /\ (forall header sibs,
        locate ship_profile ship_page [] = Some (header, sibs) ->
        find_next_sibling find_table_wrap sibs = None
        \/ (exists wrap, find_next_sibling find_table_wrap sibs = Some wrap
                         /\ find in_space_article wrap = None) ->
        get_in_space_image_src ship_page w = (Ok (Some []), w)).
Proof.
  pose proof (locate_find ship_profile ship_page []) as Hfind.
  assert (find ship_profile ship_page = None ->
          get_in_space_image_src ship_page w = (Ok None, w)) as Habsent.
  { intros Hnone. rewrite Hnone in Hfind. unfold get_in_space_image_src.
    by destruct (locate ship_profile ship_page []). }
  split_and!; [split|done|].
  - intros Hres.
    destruct (locate ship_profile ship_page []) as [[header sibs]|] eqn:Hloc;
      [|by rewrite <- Hfind].
    rewrite (locator_with_header _ _ _ _ Hloc) in Hres.
    destruct (find_img_table_cases sibs) as [[_ Ht]|(wrap & _ & Ht)];
      rewrite Ht in Hres; [done|].
    destruct (find in_space_article wrap) as [img_table|]; [|done].
    unfold ibind in Hres.
    by destruct (imap_io media_src _ w) as [[srcs|e] w'].
  - intros Hnone. by rewrite Habsent.
  - intros header sibs Hloc Hfail.
    rewrite (locator_with_header _ _ _ _ Hloc).
    destruct (find_img_table_cases sibs) as [[Hw ->]|(wrap & Hw & ->)];
      [done|].
    destruct Hfail as [Hno|(wrap' & Hw' & Hpanel)]; [congruence|].
    rewrite Hw in Hw'. injection Hw' as <-. by rewrite Hpanel.
Qed.

Lemma image_locator_result_shape_witness :
  get_in_space_image_src detail_page_no_header empty_world
    = (Ok None, empty_world)
  /\ get_in_space_image_src detail_page_no_wrap empty_world
    = (Ok (Some []), empty_world).
Proof.
  split.
  - apply (image_locator_result_shape detail_page_no_header empty_world).
    vm_compute. reflexivity.
  - apply (proj2 (proj2 (image_locator_result_shape detail_page_no_wrap
                           empty_world))
             sample_header [elem0 "p" [] [NavigableString "No images yet."]]).
    + vm_compute. reflexivity.
    + left. vm_compute. reflexivity.
Defined.

(** C3 (as amended).  The panel lookup is case-sensitive: when the
    container that follows the header's parent holds an [article] whose
    [data-title] contains "In", then a hyphen or a white-space character,
    then "space", the lookup finds an in-space panel of that container,
    and it is that article when no other one matches; the locator then
    works on the figures of the panel found. *)
Theorem in_space_panel_found (sibs : list node) (wrap panel : node)
    (pre post : string) (sep : ascii) :
  find_next_sibling find_table_wrap sibs = Some wrap ->
  panel ∈ descendants wrap ->
  tag_name panel = Some "article" ->
  tag_attrs panel !! "data-title"
    = Some (pre ++ "In" ++ String sep ("space" ++ post)) ->
  sep = "-"%char \/ is_space sep = true ->
  exists found,
    find_img_table sibs = Ok (Some found)
    /\ found ∈ descendants wrap
    /\ in_space_article found = true
    /\ ((forall other, other ∈ descendants wrap ->
           in_space_article other = true -> other = panel) ->
        found = panel)
    /\ (forall ship_page header w,
          locate ship_profile ship_page [] = Some (header, sibs) ->
          get_in_space_image_src ship_page w =
            ibind (imap_io media_src (find_all frameless_figure found))
                  (fun srcs => iret (Some srcs)) w).
Proof.
  intros Hwrap Hin Hname Htitle Hsep.
  assert (in_space_article panel = true) as Hpanel.
  { unfold in_space_article, named. rewrite Hname, Htitle.
    rewrite in_space_search_found by done. by rewrite bool_decide_eq_true_2. }
  destruct (head_filter_elem _ _ _ Hin Hpanel) as (found & Hhead & Hfin & Hfp).
  assert (find_img_table sibs = Ok (Some found)) as Htable.
  { unfold find_img_table. rewrite Hwrap. unfold find, find_all.
    by rewrite Hhead. }
  exists found. split_and!; [done..| |].
  - intros Huniq. by apply Huniq.
  - intros ship_page header w Hloc.
    by rewrite (locator_with_header _ _ _ _ Hloc), Htable.
Qed.

Lemma in_space_panel_found_witness :
  exists found,
    find_img_table [NavigableString " "; sample_wrap "In-space"]
      = Ok (Some found)
    /\ found = sample_panel "In-space".
Proof.
  destruct (in_space_panel_found
              [NavigableString " "; sample_wrap "In-space"]
              (sample_wrap "In-space") (sample_panel "In-space")
              "" "" "-"%char)
    as (found & Htable & _ & _ & Huniq & _).
  - vm_compute. reflexivity.
  - apply list_elem_of_here.
  - reflexivity.
  - vm_compute. reflexivity.
  - by left.
  - exists found. split; [exact Htable|].
    vm_compute in Htable. by injection Htable as <-.
Defined.

(** C3, as stated, fails: a panel titled "in-space", in lower case, is not
    found, and the locator returns the empty list although the panel holds
    a figure. *)
Lemma lower_case_panel_not_found :
  locate ship_profile (detail_page "in-space") []
    = Some (sample_header, [NavigableString " "; sample_wrap "in-space"])
  /\ find_next_sibling find_table_wrap
       [NavigableString " "; sample_wrap "in-space"]
     = Some (sample_wrap "in-space")
  /\ sample_panel "in-space" ∈ descendants (sample_wrap "in-space")
  /\ find_all frameless_figure (sample_panel "in-space")
     = [sample_figure "/File:Aurora_Front.jpg"]
  /\ find_img_table [NavigableString " "; sample_wrap "in-space"] = Ok None
  /\ get_in_space_image_src (detail_page "in-space") empty_world
     = (Ok (Some []), empty_world).
Proof.
  split_and!; try (vm_compute; reflexivity).
  apply list_elem_of_here.
Qed.

(** ** Traces *)

Lemma extends_refl (w : world) : extends w w [].
Proof. unfold extends. by rewrite app_nil_r. Qed.

Lemma extends_trans (w1 w2 w3 : world) (t1 t2 : list event) :
  extends w1 w2 t1 -> extends w2 w3 t2 -> extends w1 w3 (t1 ++ t2).
Proof.
  intros (Hweb1 & Hf1 & Ht1) (Hweb2 & Hf2 & Ht2). split_and!.
  - congruence.
  - set_solver.
  - by rewrite Ht2, Ht1, app_assoc.
Qed.

Lemma extends_log (w : world) (e : event) : extends w (log e w) [e].
Proof. done. Qed.

Section Emits.

(** The condition on downloads may depend on the files on disk, and it
    gets no harder to meet when files are added. *)
Variable okd : world -> string -> string -> Prop.
Hypothesis okd_anti :
  forall w w' url file_name,
    web w' = web w -> files w ⊆ files w' ->
    okd w' url file_name -> okd w url file_name.

Lemma ok_event_anti (w w' : world) (t t' : list event) :
  extends w w' t -> Forall (ok_event okd w') t' -> Forall (ok_event okd w) t'.
Proof.
  intros (Hweb & Hfiles & _) Hall. eapply Forall_impl; [exact Hall|].
  intros [| |url f|]; try done. simpl. by apply okd_anti.
Qed.

Lemma emits_iret {A} (a : A) : emits okd (iret a).
Proof. intros w. exists []. split; [apply extends_refl | constructor]. Qed.

Lemma emits_iraise {A} (e : exn) : emits okd (@iraise A e).
Proof. intros w. exists []. split; [apply extends_refl | constructor]. Qed.

Lemma emits_lift {A} (r : result A) : emits okd (lift r).
Proof. intros w. exists []. split; [apply extends_refl | constructor]. Qed.

Lemma emits_isfile (path : string) : emits okd (isfile path).
Proof. intros w. exists []. split; [apply extends_refl | constructor]. Qed.

Lemma emits_print (words : list string) : emits okd (emit (Print words)).
Proof.
  intros w. exists [Print words]. split; [apply extends_log|].
  by repeat constructor.
Qed.

Lemma emits_makedirs (path : string) : emits okd (emit (Makedirs path)).
Proof.
  intros w. exists [Makedirs path]. split; [apply extends_log|].
  by repeat constructor.
Qed.

Lemma emits_load_page (url : string) : emits okd (load_page url).
Proof.
  intros w. exists [LoadPage url]. unfold load_page.
  split; [|by repeat constructor].
  destruct (web w url); apply extends_log.
Qed.

Lemma emits_download_image (url file_name : string) :
  (forall w, okd w url file_name) ->
  emits okd (download_image url file_name).
Proof.
  intros Hok w. exists [Download url file_name]. unfold download_image.
  split; [|constructor; [apply Hok | constructor]].
  destruct (web w url); [|apply extends_log].
  split_and!; [done| |done]. simpl. set_solver.
Qed.

Lemma emits_ibind {A B} (c : IO A) (k : A -> IO B) :
  emits okd c -> (forall a, emits okd (k a)) -> emits okd (ibind c k).
Proof.
  intros Hc Hk w. destruct (Hc w) as (t1 & Hext1 & Hok1).
  unfold ibind. destruct (c w) as [[a|e] w1]; simpl in *.
  - destruct (Hk a w1) as (t2 & Hext2 & Hok2).
    exists (t1 ++ t2)%list. split; [by eapply extends_trans|].
    apply Forall_app. split; [done|]. eapply ok_event_anti; [exact Hext1|done].
  - by exists t1.
Qed.

Lemma emits_on_error {A} (c : IO A) (h : IO unit) :
  emits okd c -> emits okd h -> emits okd (on_error c h).
Proof.
  intros Hc Hh w. destruct (Hc w) as (t1 & Hext1 & Hok1).
  unfold on_error. destruct (c w) as [[a|e] w1]; simpl in *.
  - by exists t1.
  - destruct (Hh w1) as (t2 & Hext2 & Hok2).
    exists (t1 ++ t2)%list.
    assert (extends w (h w1).2 (t1 ++ t2)%list) as Hext by by eapply extends_trans.
    assert (Forall (ok_event okd w) (t1 ++ t2)%list) as Hok.
    { apply Forall_app. split; [done|]. eapply ok_event_anti; [exact Hext1|done]. }
    by destruct (h w1) as [[[]|e'] w2].
Qed.

Lemma emits_on_exn {A} (e : exn) (c : IO A) (h : IO unit) :
  emits okd c -> emits okd h -> emits okd (on_exn e c h).
Proof.
  intros Hc Hh w. destruct (Hc w) as (t1 & Hext1 & Hok1).
  unfold on_exn. destruct (c w) as [[a|e'] w1]; simpl in *.
  - by exists t1.
  - case_decide; [|by exists t1].
    destruct (Hh w1) as (t2 & Hext2 & Hok2).
    exists (t1 ++ t2)%list.
    assert (extends w (h w1).2 (t1 ++ t2)%list) as Hext by by eapply extends_trans.
    assert (Forall (ok_event okd w) (t1 ++ t2)%list) as Hok.
    { apply Forall_app. split; [done|]. eapply ok_event_anti; [exact Hext1|done]. }
    by destruct (h w1) as [[[]|e''] w2].
Qed.

Lemma emits_ifold {A B} (f : B -> A -> IO B) (l : list A) :
  (forall acc a, a ∈ l -> emits okd (f acc a)) ->
  forall acc, emits okd (ifold f acc l).
Proof.
  induction l as [|a l IH]; intros Hf acc; simpl.
  - apply emits_iret.
  - apply emits_ibind.
    + apply Hf. apply list_elem_of_here.
    + intros acc'. apply IH. intros acc'' a' Ha'. apply Hf.
      by apply list_elem_of_further.
Qed.

Lemma emits_imap_io {A B} (f : A -> IO B) (l : list A) :
  (forall a, emits okd (f a)) -> emits okd (imap_io f l).
Proof.
  intros Hf. induction l as [|a l IH]; simpl.
  - apply emits_iret.
  - apply emits_ibind; [apply Hf|]. intros b.
    apply emits_ibind; [apply IH|]. intros bs. apply emits_iret.
Qed.

(** The locator loads pages and downloads no image. *)
Lemma emits_media_src (element : node) : emits okd (media_src element).
Proof.
  unfold media_src. apply emits_ibind; [apply emits_lift|]. intros href.
  apply emits_ibind; [apply emits_load_page|]. intros media_page.
  apply emits_lift.
Qed.

Lemma emits_get_in_space_image_src (ship_page : node) :
  emits okd (get_in_space_image_src ship_page).
Proof.
  unfold get_in_space_image_src.
  destruct (locate ship_profile ship_page []) as [[header sibs]|];
    [|apply emits_iret].
  apply emits_ibind; [apply emits_lift|]. intros [img_table|];
    [|apply emits_iret].
  apply emits_ibind; [apply emits_imap_io, emits_media_src|].
  intros srcs. apply emits_iret.
Qed.

(** An image is fetched only when its path carries a view token and
    [overwrite] is set or its file is not on disk: that is all a condition
    on downloads has to allow. *)
Lemma emits_classify_image (name : string) (idx : nat) (overwrite : bool)
    (img_srcs : list string) (img_data : gmap string (list (option string)))
    (img_path img_src : string) :
  (forall w,
     is_Some (view_search img_path) ->
     overwrite = true \/ img_path ∉ files w -> okd w img_src img_path) ->
  emits okd (classify_image name idx overwrite img_srcs img_data
               (img_path, img_src)).
Proof.
  intros Htoken. unfold classify_image.
  destruct (view_search img_path) as [view_match|] eqn:Hmatch;
    [|apply emits_iret].
  assert (forall w, overwrite = true \/ img_path ∉ files w ->
                    okd w img_src img_path) as Hok.
  { intros w. apply Htoken. by eexists. }
  apply emits_ibind.
  { apply emits_on_exn; [apply emits_lift | apply emits_print]. }
  intros img_data' w. unfold ibind, isfile.
  destruct overwrite; simpl.
  - destruct (emits_ibind (download_image img_src img_path)
                (fun _ => iret img_data')) with (w := w) as (t & Ht);
      [|intros; apply emits_iret|by exists t].
    intros w0. exists [Download img_src img_path].
    unfold download_image. split.
    + destruct (web w0 img_src); [|apply extends_log].
      split_and!; [done| |done]. simpl. set_solver.
    + repeat constructor. apply Hok. by left.
  - case_bool_decide as Hfile; simpl.
    + exists []. split; [apply extends_refl | constructor].
    + unfold download_image.
      exists [Download img_src img_path]. split.
      * destruct (web w img_src); [|apply extends_log].
        split_and!; [done| |done]. simpl. set_solver.
      * repeat constructor. apply Hok. by right.
Qed.

Lemma zip_fmap_elem {A B} (f : A -> B) (l : list A) (b : B) (a : A) :
  (b, a) ∈ zip (f <$> l) l -> b = f a.
Proof.
  induction l as [|x l IH]; simpl; intros Hin.
  - by apply elem_of_nil in Hin.
  - apply elem_of_cons in Hin as [Heq|Hin]; [by injection Heq as -> ->|].
    by apply IH.
Qed.

(** Every image of a ship is fetched to the file [destination] joined with
    the base name of its address. *)
Lemma emits_visit_ship (destination : string) (overwrite : bool)
    (img_data : gmap string (list (option string)))
    (row : nat * (string * string)) :
  (forall w img_src,
     is_Some (view_search (path_join destination (basename img_src))) ->
     overwrite = true \/ path_join destination (basename img_src) ∉ files w ->
     okd w img_src (path_join destination (basename img_src))) ->
  emits okd (visit_ship destination overwrite img_data row).
Proof.
  intros Hok. destruct row as [idx [name wiki]]. unfold visit_ship.
  apply emits_ibind; [apply emits_lift|]. intros img_data'.
  apply emits_ibind.
  { apply emits_on_error; [|apply emits_print].
    apply emits_ibind; [apply emits_load_page|].
    intros page. apply emits_get_in_space_image_src. }
  intros [[|src srcs]|]; try apply emits_iret.
  apply emits_ifold. intros acc [img_path img_src] Hin.
  apply zip_fmap_elem in Hin as ->.
  apply emits_classify_image. intros w. apply Hok.
Qed.

Lemma emits_download_images (ships_data : list (string * string))
    (destination : string) (overwrite : bool) :
  (forall w img_src,
     is_Some (view_search (path_join "data/images" (basename img_src))) ->
     overwrite = true
     \/ path_join "data/images" (basename img_src) ∉ files w ->
     okd w img_src (path_join "data/images" (basename img_src))) ->
  emits okd (download_images ships_data destination overwrite).
Proof.
  intros Hok. unfold download_images.
  apply emits_ibind; [apply emits_makedirs|]. intros _.
  apply emits_ifold. intros acc row _. by apply emits_visit_ship.
Qed.

End Emits.

(** ** Classification and download *)

Lemma downloads_elem (t : list event) (url file_name : string) :
  (url, file_name) ∈ downloads t <-> Download url file_name ∈ t.
Proof.
  unfold downloads. rewrite !list_elem_of_In, in_flat_map. split.
  - intros ([| |u f|] & Hin & Hx); simpl in Hx; try done.
    destruct Hx as [[= -> ->]|[]]. done.
  - intros Hin. exists (Download url file_name). split; [done|]. by left.
Qed.

Lemma downloads_app (t1 t2 : list event) :
  downloads (t1 ++ t2) = (downloads t1 ++ downloads t2)%list.
Proof. unfold downloads. by rewrite flat_map_app. Qed.

(** The columns of a fresh image record. *)
Lemma img_data_init_lookup (n_ships : nat) (key : string) :
  img_data_init n_ships !! key =
    if bool_decide (key ∈ img_data_keys) then Some (replicate n_ships None)
    else None.
Proof.
  unfold img_data_init, img_data_keys, view_categories.
  cbn [list_to_map foldr fst snd].
  repeat (rewrite lookup_insert; case_decide;
          [subst; rewrite bool_decide_eq_true_2;
           [done | rewrite !elem_of_cons;
                   repeat first [left; reflexivity | right]]|]).
  rewrite lookup_empty, bool_decide_eq_false_2; [done|].
  rewrite !elem_of_cons, elem_of_nil. intuition congruence.
Qed.

Lemma download_images_no_refetch (ships_data : list (string * string))
    (destination : string) (w : world) :
  no_refetch w (download_images ships_data destination false w).2.
Proof.
  destruct (emits_download_images (fun w _ file_name => file_name ∉ files w))
    with (ships_data := ships_data) (destination := destination)
         (overwrite := false) (w := w) as (t & Hext & Hok).
  - intros w1 w2 _ file_name _ Hsub Hnot. set_solver.
  - intros w1 img_src _ [Hov|Hnot]; [done|exact Hnot].
  - exists t. split; [done|]. intros url file_name Hin.
    apply downloads_elem in Hin.
    rewrite Forall_forall in Hok. exact (Hok _ Hin).
Qed.

(** C8, as stated, fails: the only image of the Carrack is on disk at its
    target path and [overwrite] is set, yet the run, which locates the
    image and ends without an exception, fetches nothing. *)
Lemma overwrite_skips_numbered_image :
  let w := sample_world ["data/images/Carrack_01.jpg"] in
  let r := download_images carrack "data/images" true w in
  "data/images/Carrack_01.jpg" ∈ files w
  /\ get_in_space_image_src (gallery_page ["/File:Carrack_01.jpg"]) w
     = (Ok (Some ["https://media.starcitizen.tools/c/Carrack_01.jpg"]),
        log (LoadPage "https://starcitizen.tools/File:Carrack_01.jpg") w)
  /\ path_join "data/images"
       (basename "https://media.starcitizen.tools/c/Carrack_01.jpg")
     = "data/images/Carrack_01.jpg"
  /\ is_ok r.1
  /\ downloads (trace r.2) = [].
Proof.
  split_and!; try (vm_compute; reflexivity).
  eexists. vm_compute. reflexivity.
Qed.

(** C2 (the code at the failing input).  The [destination] that the
    caller passes is overwritten by "data/images" before it is used: the
    result does not depend on it, and a run for destination "out/images"
    creates "data/images", checks for the file there (the copy under
    "out/images" does not stop the fetch) and writes the image there. *)
Theorem download_images_destination :
  (forall ships_data destination destination' overwrite,
     download_images ships_data destination overwrite
     = download_images ships_data destination' overwrite)
  /\
  (let w := sample_world ["out/images/Aurora_Front.jpg"] in
   let r := download_images aurora "out/images" false w in
   is_ok r.1
   /\ trace r.2 =
        [ Makedirs "data/images";
          LoadPage "https://starcitizen.tools/Aurora";
          LoadPage "https://starcitizen.tools/File:Aurora_Front.jpg";
          Download "https://media.starcitizen.tools/a/Aurora_Front.jpg"
                   "data/images/Aurora_Front.jpg" ]
   /\ "data/images/Aurora_Front.jpg" ∈ files r.2).
Proof.
  split; [done|]. split_and!.
  - eexists. vm_compute. reflexivity.
  - vm_compute. reflexivity.
  - vm_compute. reflexivity.
Qed.

(** C4 (the code at the failing input).  The token "Name" is none of the
    six views, yet an image whose file name ends in it raises nothing and
    prints nothing: the file name replaces the name of the ship in the
    [Name] column. *)
Theorem name_token_not_rejected :
  let r := download_images bengal "data/images" false (sample_world []) in
  view_search "data/images/Bengal_Name.jpg" = Some "Name"
  /\ ("Name" ∉ view_categories)
  /\ (exists img_data,
        r.1 = Ok img_data
        /\ img_data !! "Name" = Some [Some "Bengal_Name.jpg"])
  /\ printed (trace r.2) = [].
Proof.
  split_and!.
  - vm_compute. reflexivity.
  - unfold view_categories. rewrite !elem_of_cons, elem_of_nil.
    intuition discriminate.
  - eexists. split; [reflexivity|]. vm_compute. reflexivity.
  - vm_compute. reflexivity.
Qed.



(** * Further properties *)

(** ** Rows *)

Lemma rmap_ok_forall {A B} (f : A -> result B) (l : list A) (bs : list B) :
  rmap f l = Ok bs -> Forall (fun a => is_ok (f a)) l.
Proof.
  revert bs. induction l as [|a l IH]; intros bs H; [constructor|].
  simpl in H. destruct (f a) as [b|] eqn:Ha; simpl in H; [|done].
  destruct (rmap f l) as [bs'|]; simpl in H; [|done].
  constructor; [by exists b | by eapply IH].
Qed.

(** A comprehension raises what its first failing element raises. *)
Lemma rmap_first_failure {A B} (f : A -> result B) (pre post : list A)
    (a : A) (e : exn) :
  Forall (fun x => is_ok (f x)) pre -> f a = Raise e ->
  rmap f (pre ++ a :: post) = Raise e.
Proof.
  intros Hpre Ha. induction Hpre as [|x pre [b Hb] _ IH]; simpl.
  - by rewrite Ha.
  - by rewrite Hb, IH.
Qed.

(** X1.  A row that extracts has one value per column, in the order of the
    columns: value [i] is what the extractor of column [i] returns.  A row
    does not extract when an extractor raises, and the exception is that
    of the first column, in column order, whose extractor raises. *)
Theorem extract_row_columns {F} (row_element : node) (columns : columns_def F) :
  (forall data,
     extract_row row_element columns = Ok data ->
     length data = length columns
     /\ forall i column,
          columns !! i = Some column ->
          exists v, column.2 row_element = Ok v /\ data !! i = Some v)
  /\
  (forall pre column post e,
     columns = (pre ++ column :: post)%list ->
     Forall (fun c => is_ok (c.2 row_element)) pre ->
     column.2 row_element = Raise e ->
     extract_row row_element columns = Raise e).
Proof.
  split.
  - intros data Hdata. split; [by eapply rmap_length|].
    intros i column Hi.
    exact (rmap_lookup _ _ _ _ _ Hdata Hi).
  - intros pre column post e -> Hpre Hcol.
    by apply (rmap_first_failure (fun column => column.2 row_element)).
Qed.

Lemma extract_row_columns_witness :
  extract_row row_with_length
    [ ("Length (m)", extract_cell_Length (Z * Z) sample_float);
      ("Name", extract_cell_Name (Z * Z));
      ("Wiki", extract_cell_Wiki (Z * Z)) ]
  = Raise AttributeError.
Proof.
  apply (proj2 (extract_row_columns row_with_length _)
           [("Length (m)", extract_cell_Length (Z * Z) sample_float)]
           ("Name", extract_cell_Name (Z * Z))
           [("Wiki", extract_cell_Wiki (Z * Z))]).
  - reflexivity.
  - constructor; [|constructor]. eexists. vm_compute. reflexivity.
  - vm_compute. reflexivity.
Defined.

Lemma even_or_odd_index (i : nat) : exists k, i = 2 * k \/ i = 2 * k + 1.
Proof.
  exists (i / 2). pose proof (Nat.div_mod_eq i 2).
  pose proof (Nat.mod_upper_bound i 2). lia.
Qed.

Lemma extract_rows_ok {F} (table : node) (columns : columns_def F)
    (rows : list (option (list (value F)))) :
  extract_rows (Some table) columns = Ok rows ->
  length rows = length (odd_nodes table) + length (even_nodes table)
  /\ (length (odd_nodes table) = length (even_nodes table)
      \/ length (odd_nodes table) = S (length (even_nodes table)))
  /\ Forall (fun r => exists data,
                        r = Some data /\ length data = length columns) rows.
Proof.
  intros Hrows.
  assert (rows_extract table columns) as Hall.
  { unfold extract_rows in Hrows. fold (even_nodes table) (odd_nodes table) in Hrows.
    destruct (rmap _ (even_nodes table)) as [ev|] eqn:Hev; [|done].
    destruct (rmap _ (odd_nodes table)) as [od|] eqn:Hod; [|done].
    apply Forall_app. split; by eapply rmap_ok_forall. }
  assert (length (odd_nodes table) = length (even_nodes table)
          \/ length (odd_nodes table) = S (length (even_nodes table)))
    as Hcount.
  { destruct (decide (length (odd_nodes table) = length (even_nodes table)));
      [by left|].
    destruct (decide (length (odd_nodes table)
                      = S (length (even_nodes table)))); [by right|].
    rewrite extract_rows_misfit in Hrows; [done|done|tauto]. }
  destruct (extract_rows_alternates table columns Hall Hcount)
    as (rows' & Hrows' & Hlen & Hodd & Heven).
  rewrite Hrows in Hrows'. injection Hrows' as <-.
  split; [done|]. split; [done|].
  apply Forall_lookup. intros i r Hi.
  pose proof (lookup_lt_Some _ _ _ Hi) as Hlt.
  destruct (even_or_odd_index i) as [k [-> | ->]].
  - destruct (lookup_lt_is_Some_2 (odd_nodes table) k) as [n Hn]; [lia|].
    destruct (Hodd k n Hn) as (data & Hdata & Hlk).
    rewrite Hi in Hlk. injection Hlk as ->.
    exists data. split; [done|]. by eapply rmap_length.
  - destruct (lookup_lt_is_Some_2 (even_nodes table) k) as [n Hn]; [lia|].
    destruct (Heven k n Hn) as (data & Hdata & Hlk).
    rewrite Hi in Hlk. injection Hlk as ->.
    exists data. split; [done|]. by eapply rmap_length.
Qed.

(** X2.  When [extract_rows] returns, nothing is left of the [None]
    placeholders: the result has one entry per row node, the odd rows are
    as many as the even rows or one more, and every entry is a row with
    one value per column. *)
Theorem extract_rows_complete {F} (table : node) (columns : columns_def F)
    (rows : list (option (list (value F)))) :
  extract_rows (Some table) columns = Ok rows ->
  length rows = length (odd_nodes table) + length (even_nodes table)
  /\ (length (odd_nodes table) = length (even_nodes table)
      \/ length (odd_nodes table) = S (length (even_nodes table)))
  /\ Forall (fun r => exists data,
                        r = Some data /\ length data = length columns) rows.
Proof. apply extract_rows_ok. Qed.

Lemma extract_rows_complete_witness :
  Forall (fun r => exists data : list (value Z),
                     r = Some data /\ length data = 1)
         [Some [VStr "Aurora"]; Some [VStr "Bengal"]; Some [VStr "Carrack"]].
Proof.
  refine (proj2 (proj2 (extract_rows_complete table_odd_even_odd name_column
                          _ _))).
  vm_compute. reflexivity.
Defined.

(** ** Optional cells *)

(** X3.  Only the [KeyError] of an optional cell is softened.  An
    optional extractor raises [TypeError] exactly when the row has no such
    cell and [ValueError] exactly when the cell carries a sort value that
    is no number, and it raises nothing else; a sort value that is a
    number is returned as that float, and a cell without a sort value
    gives the integer [-1]. *)
Theorem optional_cell_outcomes (F : Type) (float_of_str : string -> option F)
    (c : string) (extractor : node -> result (value F)) (row_element : node) :
  (c, extractor) ∈ optional_cells F float_of_str ->
  (extractor row_element = Raise TypeError <-> td c row_element = None)
  /\ (extractor row_element = Raise ValueError
      <-> exists cell v,
            td c row_element = Some cell
            /\ tag_attrs cell !! "data-sort-value" = Some v
            /\ float_of_str v = None)
  /\ (forall e, extractor row_element = Raise e ->
                e = TypeError \/ e = ValueError)
  /\ (forall cell v f,
        td c row_element = Some cell ->
        tag_attrs cell !! "data-sort-value" = Some v ->
        float_of_str v = Some f ->
        extractor row_element = Ok (VFloat f))
  /\ (forall cell,
        td c row_element = Some cell ->
        tag_attrs cell !! "data-sort-value" = None ->
        extractor row_element = Ok (VInt (-1))).
Proof.
  intros Hin.
  assert (extractor row_element =
          try_except
            (let? v := getitem (td c row_element) "data-sort-value" in
             let? f := float F float_of_str v in Ok (VFloat f))
            KeyError (Ok (VInt (-1)))) as ->.
  { unfold optional_cells in Hin.
    repeat (apply elem_of_cons in Hin as [Hin|Hin];
            [by injection Hin as -> ->|]).
    by apply elem_of_nil in Hin. }
  unfold getitem, float.
  destruct (td c row_element) as [cell|]; simpl.
  - destruct (tag_attrs cell !! "data-sort-value") as [v|] eqn:Hattr; simpl.
    + destruct (float_of_str v) as [f|] eqn:Hfloat; simpl.
      * split_and!; [done| |done| |].
        -- split; [done|]. intros (cell' & v' & [= <-] & Hv' & Hnone).
           congruence.
        -- intros cell' v' f' [= <-] Hv' Hf'. congruence.
        -- intros cell' [= <-]. congruence.
      * split_and!; [done| |intros e [= <-]; by right| |].
        -- split; [|done]. intros _. by exists cell, v.
        -- intros cell' v' f' [= <-] Hv' Hf'. congruence.
        -- intros cell' [= <-]. congruence.
    + split_and!; [done| |done| |done].
      * split; [done|]. intros (cell' & v' & [= <-] & Hv' & _). congruence.
      * intros cell' v' f' [= <-]. congruence.
  - split_and!; [done| |intros e [= <-]; by left|done|done].
    split; [done|]. by intros (cell' & v' & ? & _).
Qed.

Lemma optional_cell_outcomes_witness :
  extract_cell_SCM_speed (Z * Z) sample_float row_without_speed
  = Raise TypeError.
Proof.
  refine (proj2 (proj1 (optional_cell_outcomes (Z * Z) sample_float
                          "SCM-speed" _ row_without_speed _)) _).
  - apply list_elem_of_further, list_elem_of_here.
  - vm_compute. reflexivity.
Defined.

(** ** The listing page *)



(** ** The view pattern *)

Lemma append_nil (s : string) : "" ++ s = s.
Proof. reflexivity. Qed.

Lemma append_cons (c : ascii) (a b : string) :
  String c a ++ b = String c (a ++ b).
Proof. reflexivity. Qed.

Lemma append_assoc (a b c : string) : (a ++ b) ++ c = a ++ b ++ c.
Proof.
  induction a as [|x a IH]; [done|]. by rewrite !append_cons, IH.
Qed.

Lemma take_drop_str (j : nat) (s : string) : take_str j s ++ drop_str j s = s.
Proof.
  revert s. induction j as [|j IH]; intros [|c s]; simpl; try done.
  by rewrite append_cons, IH.
Qed.

Lemma prefix_true (p t : string) :
  String.prefix p t = true -> exists post, t = p ++ post.
Proof.
  revert t. induction p as [|c p IH]; intros t H.
  - by exists t.
  - destruct t as [|c' t]; simpl in H; [done|].
    destruct (ascii_dec c c') as [->|]; [|done].
    destruct (IH t H) as [post ->]. by exists post.
Qed.

Lemma ext_ahead_true (t : string) :
  ext_ahead t = true -> exists ext post, image_ext ext /\ t = ext ++ post.
Proof.
  unfold ext_ahead. intros [H|H]%orb_true_iff;
    destruct (prefix_true _ _ H) as [post ->].
  - exists ".jpg", post. split; [by left|done].
  - exists ".png", post. split; [by right|done].
Qed.

Lemma span_alpha_spec (s : string) :
  s = (span_alpha s).1 ++ (span_alpha s).2
  /\ all_alpha (span_alpha s).1 = true.
Proof.
  induction s as [|c s [IH1 IH2]]; simpl; [done|].
  destruct (is_alpha c) eqn:Hc; [|done].
  destruct (span_alpha s) as [run rest]; simpl in *.
  rewrite append_cons, <- IH1, Hc. done.
Qed.

Lemma all_alpha_take (j : nat) (s : string) :
  all_alpha s = true -> all_alpha (take_str j s) = true.
Proof.
  revert s. induction j as [|j IH]; intros [|c s]; simpl; try done.
  intros [Hc Hs]%andb_true_iff. rewrite Hc. by apply IH.
Qed.

Lemma take_str_app (j : nat) (a b : string) :
  j <= String.length a -> take_str j (a ++ b) = take_str j a.
Proof.
  revert a. induction j as [|j IH]; intros [|c a] Hj; simpl in *;
    try done; try lia.
  f_equal. apply IH. lia.
Qed.

Lemma view_backtrack_some (k : nat) (s m : string) :
  view_backtrack k s = Some m ->
  exists j, 1 <= j <= k /\ m = take_str j s
            /\ ext_ahead (drop_str j s) = true.
Proof.
  induction k as [|k IH]; [done|]. cbn [view_backtrack].
  destruct (ext_ahead (drop_str (S k) s)) eqn:Hext.
  - intros [= <-]. exists (S k). split; [lia|done].
  - intros H. destruct (IH H) as (j & Hj & Hm & He).
    exists j. split; [lia|done].
Qed.

Lemma view_match_here_some (s m : string) :
  view_match_here s = Some m ->
  m <> "" /\ all_alpha m = true
  /\ exists ext post, image_ext ext /\ s = m ++ ext ++ post.
Proof.
  unfold view_match_here. intros H.
  destruct (view_backtrack_some _ _ _ H) as (j & Hj & -> & Hext).
  destruct (span_alpha_spec s) as [Hs Halpha].
  destruct (span_alpha s) as [run rest]; simpl in *.
  assert (take_str j s = take_str j run) as Htake
    by (rewrite Hs at 1; apply take_str_app; lia).
  split_and!.
  - rewrite Htake. destruct run as [|c run]; simpl in Hj; [lia|].
    destruct j; [lia|done].
  - rewrite Htake. by apply all_alpha_take.
  - destruct (ext_ahead_true _ Hext) as (ext & post & Hx & Hd).
    exists ext, post. split; [done|].
    rewrite <- Hd. by rewrite take_drop_str.
Qed.

(** X5.  What the view pattern finds in a path is a non-empty run of
    letters that stands in the path right in front of ".jpg" or ".png". *)
Theorem view_search_sound (img_path view_match : string) :
  view_search img_path = Some view_match ->
  view_match <> ""
  /\ all_alpha view_match = true
  /\ exists pre ext post,
       image_ext ext /\ img_path = pre ++ view_match ++ ext ++ post.
Proof.
  induction img_path as [|c s IH]; cbn [view_search].
  - destruct (view_match_here "") as [m|] eqn:Hm; [|done].
    intros [= <-]. destruct (view_match_here_some _ _ Hm)
      as (Hne & Ha & ext & post & Hx & Hs).
    split_and!; [done..|]. by exists "", ext, post.
  - destruct (view_match_here (String c s)) as [m|] eqn:Hm.
    + intros [= <-]. destruct (view_match_here_some _ _ Hm)
        as (Hne & Ha & ext & post & Hx & Hs).
      split_and!; [done..|]. by exists "", ext, post.
    + intros H. destruct (IH H) as (Hne & Ha & pre & ext & post & Hx & ->).
      split_and!; [done..|]. by exists (String c pre), ext, post.
Qed.

Lemma view_search_sound_witness :
  "Front" <> "" /\ all_alpha "Front" = true.
Proof.
  destruct (view_search_sound "data/images/Aurora_Front.jpg" "Front")
    as (Hne & Ha & _).
  - vm_compute. reflexivity.
  - split; [exact Hne | exact Ha].
Defined.

Lemma ext_ahead_not_dot (c : ascii) (s : string) :
  ascii_eqb c "." = false -> ext_ahead (String c s) = false.
Proof.
  unfold ext_ahead, ascii_eqb. intros Hc%bool_decide_eq_false.
  cbn [String.prefix].
  destruct (ascii_dec "." c) as [<-|]; [done|]. done.
Qed.

Lemma ext_ahead_app (ext post : string) :
  image_ext ext -> ext_ahead (ext ++ post) = true.
Proof.
  unfold ext_ahead. intros [-> | ->]; rewrite prefix_app; [done|].
  apply orb_true_r.
Qed.

Lemma view_backtrack_none (k : nat) (s : string) :
  (forall j, 1 <= j <= k -> ext_ahead (drop_str j s) = false) ->
  view_backtrack k s = None.
Proof.
  induction k as [|k IH]; intros H; [done|]. cbn [view_backtrack].
  rewrite (H (S k)) by lia. apply IH. intros j Hj. apply H. lia.
Qed.

(** In front of a separator that is neither a letter nor a dot, and with
    no dot before it, no position starts a match. *)
Lemma drop_before_sep (pre rest : string) (sep : ascii) (j : nat) :
  no_dot pre = true -> ascii_eqb sep "." = false ->
  j <= String.length pre ->
  ext_ahead (drop_str j (pre ++ String sep rest)) = false.
Proof.
  intros Hpre Hsep. revert j.
  induction pre as [|c pre IH]; intros j Hj; simpl in Hj.
  - replace j with 0 by lia. by apply ext_ahead_not_dot.
  - simpl in Hpre. apply andb_true_iff in Hpre as [Hc Hpre].
    rewrite append_cons. destruct j as [|j]; simpl.
    + apply ext_ahead_not_dot. by destruct (ascii_eqb c ".").
    + apply IH; [done|lia].
Qed.

Lemma span_alpha_before_sep (pre rest : string) (sep : ascii) :
  is_alpha sep = false ->
  String.length (span_alpha (pre ++ String sep rest)).1 <= String.length pre.
Proof.
  intros Hsep. induction pre as [|c pre IH].
  - rewrite append_nil. simpl. by rewrite Hsep.
  - rewrite append_cons. simpl. destruct (is_alpha c); simpl; [|lia].
    destruct (span_alpha (pre ++ String sep rest)); simpl in *. lia.
Qed.

Lemma span_alpha_token (token rest : string) (c : ascii) :
  all_alpha token = true -> is_alpha c = false ->
  (span_alpha (token ++ String c rest)).1 = token.
Proof.
  intros Htok Hc. induction token as [|x token IH].
  - rewrite append_nil. simpl. by rewrite Hc.
  - simpl in Htok. apply andb_true_iff in Htok as [Hx Htok].
    rewrite append_cons. simpl. rewrite Hx.
    specialize (IH Htok).
    destruct (span_alpha (token ++ String c rest)); simpl in *. by rewrite IH.
Qed.

Lemma drop_str_app (a b : string) : drop_str (String.length a) (a ++ b) = b.
Proof. induction a as [|c a IH]; [by destruct b|]. by rewrite append_cons. Qed.

Lemma take_str_all (a b : string) : take_str (String.length a) (a ++ b) = a.
Proof.
  induction a as [|c a IH]; [by destruct b|].
  rewrite append_cons. simpl. by rewrite IH.
Qed.

(** A token in front of its extension is matched where it starts. *)
Lemma view_match_here_token (token ext post : string) :
  token <> "" -> all_alpha token = true -> image_ext ext ->
  view_match_here (token ++ ext ++ post) = Some token.
Proof.
  intros Hne Htok Hext. unfold view_match_here.
  assert (exists rest, ext ++ post = String "." rest) as [rest Hrest]
    by (destruct Hext as [-> | ->]; by eexists).
  rewrite Hrest, span_alpha_token by done. rewrite <- Hrest.
  destruct token as [|c token]; [done|]. cbn [String.length view_backtrack].
  change (S (String.length token)) with (String.length (String c token)).
  rewrite drop_str_app, ext_ahead_app by done.
  by rewrite take_str_all.
Qed.

Lemma view_search_here (s m : string) :
  view_match_here s = Some m -> view_search s = Some m.
Proof. intros H. destruct s; cbn [view_search]; by rewrite H. Qed.

(** X6.  A file name that ends in a separator (neither a letter nor a
    dot), a token of letters and ".jpg" or ".png" is classified by that
    token, provided no dot stands before the separator: this is how
    "data/images/Aurora_Front.jpg" comes to the view "Front". *)
Theorem view_search_token (pre token ext post : string) (sep : ascii) :
  no_dot pre = true ->
  is_alpha sep = false -> ascii_eqb sep "." = false ->
  token <> "" -> all_alpha token = true -> image_ext ext ->
  view_search (pre ++ String sep (token ++ ext ++ post)) = Some token.
Proof.
  intros Hpre Hsep Hdot Hne Htok Hext.
  assert (forall p, no_dot p = true ->
            view_match_here (p ++ String sep (token ++ ext ++ post)) = None)
    as Hnone.
  { intros p Hp. unfold view_match_here. apply view_backtrack_none.
    intros j Hj. apply drop_before_sep; [done..|].
    pose proof (span_alpha_before_sep p (token ++ ext ++ post) sep Hsep).
    lia. }
  induction pre as [|c pre IH].
  - pose proof (Hnone "" eq_refl) as H0. rewrite append_nil in *.
    cbn [view_search]. rewrite H0.
    apply view_search_here. by apply view_match_here_token.
  - pose proof (Hnone (String c pre) Hpre) as H0. rewrite append_cons in *.
    cbn [view_search]. rewrite H0.
    apply IH. simpl in Hpre. by apply andb_true_iff in Hpre as [_ ?].
Qed.

Lemma view_search_token_witness :
  view_search "data/images/Aurora_Front.jpg" = Some "Front".
Proof.
  apply (view_search_token "data/images/Aurora" "Front" ".jpg" "" "_"%char).
  - reflexivity.
  - reflexivity.
  - reflexivity.
  - discriminate.
  - reflexivity.
  - by left.
Defined.

(** ** Paths *)

Lemma no_slash_app (a b : string) :
  no_slash (a ++ b) = no_slash a && no_slash b.
Proof.
  induction a as [|c a IH]; [done|]. rewrite append_cons. simpl.
  rewrite IH. by rewrite andb_assoc.
Qed.

Lemma basename_from_no_slash (cur s : string) :
  no_slash cur = true -> no_slash (basename_from cur s) = true.
Proof.
  revert cur. induction s as [|c s IH]; intros cur Hcur; simpl; [done|].
  destruct (ascii_eqb c "/") eqn:Hc; apply IH; [done|].
  rewrite no_slash_app, Hcur. simpl. by rewrite Hc.
Qed.

Lemma basename_from_plain (cur s : string) :
  no_slash s = true -> basename_from cur s = cur ++ s.
Proof.
  revert cur. induction s as [|c s IH]; intros cur Hs; simpl in *.
  - clear. induction cur as [|x cur IH]; [done|].
    by rewrite append_cons, <- IH.
  - apply andb_true_iff in Hs as [Hc Hs].
    destruct (ascii_eqb c "/"); [done|].
    rewrite IH by done. by rewrite append_assoc.
Qed.

Lemma basename_from_after_slash (cur dir b : string) :
  no_slash b = true -> basename_from cur (dir ++ String "/" b) = b.
Proof.
  intros Hb. revert cur. induction dir as [|c dir IH]; intros cur.
  - rewrite append_nil. simpl. by rewrite basename_from_plain.
  - rewrite append_cons. simpl. by destruct (ascii_eqb c "/").
Qed.

Lemma path_join_images (b : string) :
  no_slash b = true -> path_join "data/images" b = "data/images/" ++ b.
Proof.
  intros Hb. unfold path_join.
  assert (String.prefix "/" b = false) as ->.
  { destruct b as [|c b]; [done|]. cbn [String.prefix no_slash] in *.
    apply andb_true_iff in Hb as [Hc _]. unfold ascii_eqb in Hc.
    destruct (ascii_dec "/" c) as [<-|]; [by vm_compute in Hc|done]. }
  done.
Qed.

(** The path of an image is the image directory, a slash and the base name
    of its address, and the base name of that path is the same name. *)
Lemma image_path_shape (img_src : string) :
  path_join "data/images" (basename img_src)
    = "data/images/" ++ basename img_src
  /\ no_slash (basename img_src) = true
  /\ basename (path_join "data/images" (basename img_src))
     = basename img_src.
Proof.
  assert (no_slash (basename img_src) = true) as Hb
    by by apply basename_from_no_slash.
  rewrite path_join_images by done. split_and!; [done..|].
  change ("data/images/" ++ basename img_src)
    with ("data/images" ++ String "/" (basename img_src)).
  by apply basename_from_after_slash.
Qed.

(** X7.  Whatever the destination and the [overwrite] flag, a run only
    adds to the trace, removes no file, and every image it fetches is
    written to "data/images/" followed by the base name of the address of
    the image, a name without a slash: right inside the directory the run
    creates. *)
Theorem download_images_targets (ships_data : list (string * string))
    (destination : string) (overwrite : bool) (w : world) :
  exists t,
    extends w (download_images ships_data destination overwrite w).2 t
    /\ forall url file_name,
         (url, file_name) ∈ downloads t ->
         file_name = "data/images/" ++ basename url
         /\ no_slash (basename url) = true
         /\ basename file_name = basename url.
Proof.
  destruct (emits_download_images
              (fun _ url file_name =>
                 file_name = path_join "data/images" (basename url)))
    with (ships_data := ships_data) (destination := destination)
         (overwrite := overwrite) (w := w) as (t & Hext & Hok).
  - done.
  - done.
  - exists t. split; [done|]. intros url file_name Hin.
    apply downloads_elem in Hin. rewrite Forall_forall in Hok.
    specialize (Hok _ Hin). simpl in Hok. subst file_name.
    destruct (image_path_shape url) as (H1 & H2 & H3).
    by rewrite <- H1.
Qed.

(** ** The figures of the in-space panel *)

Lemma media_src_resolves (w w0 : world) (element : node)
    (load : string * string) :
  web w0 = web w ->
  resolves w element load ->
  media_src element w0 = (Ok load.2, log (LoadPage load.1) w0).
Proof.
  intros Hweb (media_page & Hurl & Hpage & Hsrc).
  unfold media_url in Hurl. unfold media_src, ibind, lift, load_page.
  destruct (getitem (find (named "a") element) "href") as [href|e];
    [|done].
  injection Hurl as Hurl. rewrite Hurl, Hweb, Hpage. by rewrite Hsrc.
Qed.

Lemma media_src_fails (w w0 : world) (element : node) (e : exn)
    (t : list event) :
  web w0 = web w ->
  fails w element e t ->
  media_src element w0
  = (Raise e, World (web w0) (files w0) (trace w0 ++ t)).
Proof.
  intros Hweb Hfails. unfold media_src, ibind, lift, load_page.
  destruct Hfails as [e Hlink|url Hurl Hpage|url media_page e Hurl Hpage Hsrc].
  - rewrite Hlink, app_nil_r. by destruct w0.
  - unfold media_url in Hurl.
    destruct (getitem (find (named "a") element) "href") as [href|e];
      [|done].
    injection Hurl as Hurl. rewrite <- Hweb in Hpage.
    by rewrite Hurl, Hpage.
  - unfold media_url in Hurl.
    destruct (getitem (find (named "a") element) "href") as [href|e'];
      [|done].
    injection Hurl as Hurl. rewrite <- Hweb in Hpage.
    by rewrite Hurl, Hpage, Hsrc.
Qed.

(** A turn of the loop either resolves its figure or fails on it. *)
Lemma media_src_cases (w : world) (element : node) :
  (exists load, resolves w element load)
  \/ (exists e t, fails w element e t).
Proof.
  destruct (getitem (find (named "a") element) "href") as [href|e] eqn:Hlink.
  - assert (media_url element = Ok (STAR_CITIZEN_WIKI_ROOT ++ href)) as Hurl
      by (unfold media_url; by rewrite Hlink).
    destruct (web w (STAR_CITIZEN_WIKI_ROOT ++ href))
      as [media_page|] eqn:Hpage.
    + destruct (getitem (find (named_class "a" "internal") media_page) "href")
        as [src|e] eqn:Hsrc.
      * left. exists (STAR_CITIZEN_WIKI_ROOT ++ href, src). by exists media_page.
      * right. exists e, [LoadPage (STAR_CITIZEN_WIKI_ROOT ++ href)].
        by eapply fails_source.
    + right. exists ConnectionError, [LoadPage (STAR_CITIZEN_WIKI_ROOT ++ href)].
      by apply fails_load.
  - right. exists e, []. by apply fails_link.
Qed.

Lemma fails_exn (w : world) (element : node) (e : exn) (t : list event) :
  fails w element e t ->
  e = TypeError \/ e = KeyError \/ e = ConnectionError.
Proof.
  assert (forall o k e', getitem o k = Raise e' ->
                         e' = TypeError \/ e' = KeyError) as Hget.
  { intros [n|] k e'; unfold getitem; [|intros [= <-]; by left].
    destruct (tag_attrs n !! k); [done|]. intros [= <-]. by right. }
  intros [e' Hlink|url _ _|url media_page e' _ _ Hsrc].
  - destruct (Hget _ _ _ Hlink); auto.
  - auto.
  - destruct (Hget _ _ _ Hsrc); auto.
Qed.

Lemma fails_loads (w : world) (element : node) (e : exn) (t : list event) :
  fails w element e t -> exists urls, t = LoadPage <$> urls.
Proof.
  intros [| |]; [by exists [] | by eexists [_] | by eexists [_]].
Qed.

Lemma imap_media_src_resolves (w : world) (figures : list node)
    (loads : list (string * string)) :
  Forall2 (resolves w) figures loads ->
  forall w0, web w0 = web w ->
    imap_io media_src figures w0
    = (Ok loads.*2,
       World (web w0) (files w0) (trace w0 ++ (LoadPage <$> loads.*1))).
Proof.
  induction 1 as [|element load figures loads Hres _ IH]; intros w0 Hweb.
  - simpl. unfold iret. rewrite app_nil_r. by destruct w0.
  - cbn [imap_io]. unfold ibind at 1.
    rewrite (media_src_resolves w w0 element load) by done.
    unfold ibind at 1. rewrite IH by done. unfold iret. simpl.
    by rewrite <- app_assoc.
Qed.

(** The loop stops at the first figure that fails. *)
Lemma imap_media_src_fails (w : world) (before after : list node)
    (element : node) (loads : list (string * string)) (e : exn)
    (t : list event) :
  Forall2 (resolves w) before loads ->
  fails w element e t ->
  forall w0, web w0 = web w ->
    imap_io media_src (before ++ element :: after) w0
    = (Raise e,
       World (web w0) (files w0)
             (trace w0 ++ (LoadPage <$> loads.*1) ++ t)).
Proof.
  intros Hbefore Hfails.
  induction Hbefore as [|first load before loads Hres _ IH]; intros w0 Hweb.
  - cbn [app imap_io fmap list_fmap]. unfold ibind at 1.
    rewrite (media_src_fails w w0 element e t) by done. done.
  - cbn [app imap_io]. unfold ibind at 1.
    rewrite (media_src_resolves w w0 first load) by done.
    unfold ibind at 1. rewrite IH by done. simpl.
    by rewrite <- app_assoc.
Qed.

(** Every outcome of the loop: all figures resolve, or the figures before
    the first failing one do. *)
Lemma imap_media_src_cases (w : world) (figures : list node) :
  (exists loads, Forall2 (resolves w) figures loads)
  \/ (exists before element after loads e t,
        figures = (before ++ element :: after)%list
        /\ Forall2 (resolves w) before loads
        /\ fails w element e t).
Proof.
  induction figures as [|element figures IH].
  - left. exists []. constructor.
  - destruct (media_src_cases w element) as [[load Hres]|(e & t & Hfails)].
    + destruct IH as [[loads Hall]
                     |(before & element' & after & loads & e & t
                       & -> & Hbefore & Hfails)].
      * left. exists (load :: loads). by constructor.
      * right. exists (element :: before), element', after, (load :: loads),
                 e, t.
        split_and!; [done| |done]. by constructor.
    + right. exists [], element, figures, [], e, t.
      split_and!; [done|constructor|done].
Qed.

(** X8.  With the header and the in-space panel in place, the locator
    returns a list of sources exactly when every frameless figure of the
    panel resolves: it then returns the figures' sources in the order of
    the figures, having loaded the media page of each figure once, in that
    order, and nothing else. *)
Theorem locator_sources (ship_page header : node) (sibs : list node)
    (img_table : node) (w w' : world) (srcs : list string) :
  locate ship_profile ship_page [] = Some (header, sibs) ->
  find_img_table sibs = Ok (Some img_table) ->
  get_in_space_image_src ship_page w = (Ok (Some srcs), w')
  <-> exists loads,
        Forall2 (resolves w) (find_all frameless_figure img_table) loads
        /\ srcs = loads.*2
        /\ w' = World (web w) (files w)
                      (trace w ++ (LoadPage <$> loads.*1)).
Proof.
  intros Hloc Htable.
  rewrite (locator_with_header _ _ _ _ Hloc), Htable. unfold ibind, iret.
  split.
  - intros Hrun.
    destruct (imap_media_src_cases w (find_all frameless_figure img_table))
      as [[loads Hall]
         |(before & element & after & loads & e & t & Hfig & Hbefore & Hfails)].
    + exists loads. rewrite (imap_media_src_resolves w _ loads) in Hrun by done.
      injection Hrun as <- <-. done.
    + rewrite Hfig in Hrun.
      by rewrite (imap_media_src_fails w _ _ _ loads e t) in Hrun.
  - intros (loads & Hall & -> & ->).
    by rewrite (imap_media_src_resolves w _ loads).
Qed.

Lemma locator_sources_witness :
  get_in_space_image_src
    (gallery_page ["/File:Aurora_Front.jpg"; "/File:Carrack_01.jpg"])
    (sample_world [])
  = (Ok (Some ["https://media.starcitizen.tools/a/Aurora_Front.jpg";
               "https://media.starcitizen.tools/c/Carrack_01.jpg"]),
     World (web (sample_world [])) ∅
           [LoadPage "https://starcitizen.tools/File:Aurora_Front.jpg";
            LoadPage "https://starcitizen.tools/File:Carrack_01.jpg"]).
Proof.
  apply (locator_sources
           (gallery_page ["/File:Aurora_Front.jpg"; "/File:Carrack_01.jpg"])
           sample_header
           [elem "div" ["citizen-table-wrapper"] []
              [elem0 "article" [("data-title", "In-space")]
                 (sample_figure <$>
                    ["/File:Aurora_Front.jpg"; "/File:Carrack_01.jpg"])]]
           (elem0 "article" [("data-title", "In-space")]
              (sample_figure <$>
                 ["/File:Aurora_Front.jpg"; "/File:Carrack_01.jpg"]))).
  - vm_compute. reflexivity.
  - vm_compute. reflexivity.
  - exists [("https://starcitizen.tools/File:Aurora_Front.jpg",
             "https://media.starcitizen.tools/a/Aurora_Front.jpg");
            ("https://starcitizen.tools/File:Carrack_01.jpg",
             "https://media.starcitizen.tools/c/Carrack_01.jpg")].
    split_and!.
    + repeat constructor.
      * exists (media_page "https://media.starcitizen.tools/a/Aurora_Front.jpg").
        split_and!; vm_compute; reflexivity.
      * exists (media_page "https://media.starcitizen.tools/c/Carrack_01.jpg").
        split_and!; vm_compute; reflexivity.
    + reflexivity.
    + reflexivity.
Defined.

(** X9.  An exception in a turn of the figure loop is not caught: when
    the figures before a figure resolve and that figure fails (no link, a
    link without [href], a media page that cannot be loaded or that has no
    usable [a.internal]), the locator raises the exception of that figure,
    after the page loads of the figures before it and of the figure
    itself; the figures after it are not visited. *)
Theorem locator_figure_error (ship_page header : node) (sibs : list node)
    (img_table : node) (before after : list node) (element : node)
    (loads : list (string * string)) (e : exn) (t : list event) (w : world) :
  locate ship_profile ship_page [] = Some (header, sibs) ->
  find_img_table sibs = Ok (Some img_table) ->
  find_all frameless_figure img_table = (before ++ element :: after)%list ->
  Forall2 (resolves w) before loads ->
  fails w element e t ->
  get_in_space_image_src ship_page w
  = (Raise e,
     World (web w) (files w) (trace w ++ (LoadPage <$> loads.*1) ++ t)).
Proof.
  intros Hloc Htable Hfig Hbefore Hfails.
  rewrite (locator_with_header _ _ _ _ Hloc), Htable, Hfig. unfold ibind.
  by rewrite (imap_media_src_fails w _ _ _ loads e t).
Qed.

Lemma locator_figure_error_witness :
  get_in_space_image_src
    (gallery_of [sample_figure "/File:Aurora_Front.jpg"; bare_figure;
                 sample_figure "/File:Carrack_01.jpg"])
    (sample_world [])
  = (Raise TypeError,
     World (web (sample_world [])) ∅
           [LoadPage "https://starcitizen.tools/File:Aurora_Front.jpg"]).
Proof.
  apply (locator_figure_error
           (gallery_of [sample_figure "/File:Aurora_Front.jpg"; bare_figure;
                        sample_figure "/File:Carrack_01.jpg"])
           sample_header
           [elem "div" ["tabber"] []
              [elem0 "article" [("data-title", "In space")]
                 [sample_figure "/File:Aurora_Front.jpg"; bare_figure;
                  sample_figure "/File:Carrack_01.jpg"]]]
           (elem0 "article" [("data-title", "In space")]
              [sample_figure "/File:Aurora_Front.jpg"; bare_figure;
               sample_figure "/File:Carrack_01.jpg"])
           [sample_figure "/File:Aurora_Front.jpg"]
           [sample_figure "/File:Carrack_01.jpg"]
           bare_figure
           [("https://starcitizen.tools/File:Aurora_Front.jpg",
             "https://media.starcitizen.tools/a/Aurora_Front.jpg")]
           TypeError [] (sample_world [])).
  - vm_compute. reflexivity.
  - vm_compute. reflexivity.
  - vm_compute. reflexivity.
  - repeat constructor.
    exists (media_page "https://media.starcitizen.tools/a/Aurora_Front.jpg").
    split_and!; vm_compute; reflexivity.
  - apply fails_link. vm_compute. reflexivity.
Defined.

(** X10.  Whatever the page and the site, the locator keeps the site and
    the files as they are, adds only page loads to the trace, and raises
    nothing but a [TypeError], a [KeyError] or a [ConnectionError]: the
    [AttributeError] of the walk to the panel never leaves it. *)
Theorem locator_effects (ship_page : node) (w : world) :
  let r := get_in_space_image_src ship_page w in
  web r.2 = web w
  /\ files r.2 = files w
  /\ (exists urls, trace r.2 = (trace w ++ (LoadPage <$> urls))%list)
  /\ (forall e, r.1 = Raise e ->
        e = TypeError \/ e = KeyError \/ e = ConnectionError).
Proof.
  assert (w = World (web w) (files w) (trace w ++ (LoadPage <$> []))) as Hw
    by (simpl; rewrite app_nil_r; by destruct w).
  cbn zeta.
  destruct (locate ship_profile ship_page []) as [[header sibs]|] eqn:Hloc.
  - rewrite (locator_with_header _ _ _ _ Hloc).
    destruct (find_img_table_cases sibs) as [[_ ->]|(wrap & _ & ->)].
    { split_and!; [done..|by exists []; rewrite app_nil_r|done]. }
    destruct (find in_space_article wrap) as [img_table|];
      [|split_and!; [done..|by exists []; rewrite app_nil_r|done]].
    unfold ibind, iret.
    destruct (imap_media_src_cases w (find_all frameless_figure img_table))
      as [[loads Hall]
         |(before & element & after & loads & e & t & -> & Hbefore & Hfails)].
    + rewrite (imap_media_src_resolves w _ loads) by done. simpl.
      split_and!; [done..|by eexists|done].
    + rewrite (imap_media_src_fails w _ _ _ loads e t) by done. simpl.
      split_and!; [done..| |].
      * destruct (fails_loads _ _ _ _ Hfails) as [urls ->].
        exists (loads.*1 ++ urls)%list. by rewrite fmap_app.
      * intros e' [= <-]. by eapply fails_exn.
  - unfold get_in_space_image_src. rewrite Hloc. unfold iret. simpl.
    split_and!; [done..|by exists []; rewrite app_nil_r|done].
Qed.

(** ** The image record *)

(** The handler of the cell assignment: a [KeyError] is reported and
    raised again, every other outcome is left alone. *)
Lemma on_exn_lift_print {A} (r : result A) (words : list string) (w : world) :
  on_exn KeyError (lift r) (emit (Print words)) w
  = match r with
    | Ok a => (Ok a, w)
    | Raise e => if decide (e = KeyError)
                 then (Raise e, log (Print words) w)
                 else (Raise e, w)
    end.
Proof. unfold on_exn, lift, emit. destruct r as [a|e]; [done|]. by case_decide. Qed.

Lemma set_cell_ok (key : string) (idx : nat) (v : string)
    (img_data img_data' : gmap string (list (option string))) :
  set_cell key idx v img_data = Ok img_data'
  <-> exists column,
        img_data !! key = Some column
        /\ idx < length column
        /\ img_data' = <[key := <[idx := Some v]> column]> img_data.
Proof.
  unfold set_cell. destruct (img_data !! key) as [column|].
  - case_decide as Hidx.
    + split; [intros [= <-]; by exists column|].
      by intros (column' & [= <-] & _ & ->).
    + split; [done|]. intros (column' & [= <-] & Hlt & _). lia.
  - split; [done|]. by intros (column' & ? & _).
Qed.

Lemma set_cell_shape (n_ships : nat) (key : string) (idx : nat) (v : string)
    (img_data img_data' : gmap string (list (option string))) :
  record_shape n_ships img_data ->
  set_cell key idx v img_data = Ok img_data' ->
  record_shape n_ships img_data'.
Proof.
  intros [Hkeys Hlen] Hset.
  apply set_cell_ok in Hset as (column & Hcol & _ & ->). split.
  - intros key'. rewrite lookup_insert. case_decide as Hk; [|apply Hkeys].
    subst key'. rewrite <- Hkeys, Hcol. split; by eexists.
  - intros key' column'. rewrite lookup_insert. case_decide as Hk.
    + intros [= <-]. rewrite length_insert. by eapply Hlen.
    + apply Hlen.
Qed.

Lemma set_cell_names (k : nat) (key : string) (idx : nat) (v : string)
    (img_data img_data' : gmap string (list (option string))) :
  names_filled k img_data ->
  set_cell key idx v img_data = Ok img_data' ->
  names_filled k img_data'.
Proof.
  intros (names & Hnames & Hfilled) Hset.
  apply set_cell_ok in Hset as (column & Hcol & _ & ->). unfold names_filled.
  rewrite lookup_insert. case_decide as Hk; [|by exists names].
  subst key. rewrite Hnames in Hcol. injection Hcol as <-.
  eexists. split; [done|]. intros i Hi.
  destruct (Hfilled i Hi) as [v' Hv'].
  destruct (decide (idx = i)) as [->|Hne].
  - exists v. apply list_lookup_insert_eq. by eapply lookup_lt_Some.
  - exists v'. by rewrite list_lookup_insert_ne.
Qed.

Lemma set_cell_next_name (n_ships k : nat) (v : string)
    (img_data img_data' : gmap string (list (option string))) :
  record_shape n_ships img_data ->
  names_filled k img_data ->
  k < n_ships ->
  set_cell "Name" k v img_data = Ok img_data' ->
  names_filled (S k) img_data'.
Proof.
  intros [_ Hlen] (names & Hnames & Hfilled) Hk Hset.
  apply set_cell_ok in Hset as (column & Hcol & _ & ->).
  rewrite Hnames in Hcol. injection Hcol as <-. unfold names_filled.
  rewrite lookup_insert_eq. eexists. split; [done|]. intros i Hi.
  destruct (decide (k = i)) as [->|Hne].
  - exists v. apply list_lookup_insert_eq. by rewrite (Hlen _ _ Hnames).
  - rewrite list_lookup_insert_ne by done. apply Hfilled. lia.
Qed.

(** A turn of the image loop that ends well leaves the record as it was
    or assigns one cell of the row of the ship. *)
Lemma classify_image_ok (name : string) (idx : nat) (overwrite : bool)
    (img_srcs : list string)
    (img_data img_data' : gmap string (list (option string)))
    (img : string * string) (w w' : world) :
  classify_image name idx overwrite img_srcs img_data img w
    = (Ok img_data', w') ->
  img_data' = img_data
  \/ exists key, set_cell key idx (basename img.1) img_data = Ok img_data'.
Proof.
  destruct img as [img_path img_src]. unfold classify_image.
  destruct (view_search img_path) as [view_match|];
    [|intros [= <- _]; by left].
  unfold ibind at 1. rewrite on_exn_lift_print. unfold ibind, isfile.
  destruct (set_cell (view_fault_tolerance view_match) idx
              (basename img_path) img_data) as [stored|e] eqn:Hset;
    [|by case_decide].
  intros Hrun. right. exists (view_fault_tolerance view_match).
  simpl. rewrite Hset. f_equal.
  destruct (overwrite || negb (bool_decide (img_path ∈ files w)));
    [|by injection Hrun].
  unfold download_image, iret in Hrun.
  destruct (web w img_src); [by injection Hrun|done].
Qed.

(** A property of the accumulator that every turn keeps holds at the end
    of a loop that ends well. *)
Lemma ifold_invariant {A B} (P : B -> Prop) (f : B -> A -> IO B)
    (l : list A) :
  (forall acc a w acc' w',
     P acc -> f acc a w = (Ok acc', w') -> P acc') ->
  forall acc w acc' w',
    P acc -> ifold f acc l w = (Ok acc', w') -> P acc'.
Proof.
  intros Hstep. induction l as [|a l IH]; intros acc w acc' w' Hacc Hrun.
  - by injection Hrun as <- _.
  - cbn [ifold] in Hrun. unfold ibind in Hrun.
    destruct (f acc a w) as [[acc1|e] w1] eqn:Hturn; [|done].
    eapply IH; [|exact Hrun]. by eapply Hstep.
Qed.

(** The same for a loop over numbered elements, with a property that
    depends on the number of turns made. *)
Lemma ifold_numbered {A B} (P : nat -> B -> Prop)
    (f : B -> nat * A -> IO B) (l : list A) :
  forall start,
    (forall i a acc w acc' w',
       start <= i < start + length l ->
       P i acc -> f acc (i, a) w = (Ok acc', w') -> P (S i) acc') ->
    forall acc w acc' w',
      P start acc ->
      ifold f acc (zip (seq start (length l)) l) w = (Ok acc', w') ->
      P (start + length l) acc'.
Proof.
  induction l as [|a l IH]; intros start Hstep acc w acc' w' Hacc Hrun.
  - injection Hrun as <- _. simpl. by rewrite Nat.add_0_r.
  - cbn [length seq zip zip_with ifold] in Hrun. unfold ibind in Hrun.
    destruct (f acc (start, a) w) as [[acc1|e] w1] eqn:Hturn; [|done].
    cbn [length]. replace (start + S (length l)) with (S start + length l)
      by lia.
    eapply (IH (S start)); [| |exact Hrun].
    + intros i a' acc0 w0 acc0' w0' Hi. apply Hstep. cbn [length]. lia.
    + eapply Hstep; [|exact Hacc|exact Hturn]. cbn [length]. lia.
Qed.

Lemma visit_ship_shape (n_ships idx : nat) (destination : string)
    (overwrite : bool) (name wiki : string)
    (img_data img_data' : gmap string (list (option string)))
    (w w' : world) :
  idx < n_ships ->
  record_shape n_ships img_data /\ names_filled idx img_data ->
  visit_ship destination overwrite img_data (idx, (name, wiki)) w
    = (Ok img_data', w') ->
  record_shape n_ships img_data' /\ names_filled (S idx) img_data'.
Proof.
  intros Hidx [Hshape Hnames]. unfold visit_ship. unfold ibind at 1.
  unfold lift.
  destruct (set_cell "Name" idx name img_data) as [named_data|e] eqn:Hset;
    [|done].
  assert (record_shape n_ships named_data /\ names_filled (S idx) named_data)
    as Hnamed.
  { split; [by eapply set_cell_shape | by eapply set_cell_next_name]. }
  unfold ibind.
  destruct (on_error _ _ w) as [[img_srcs|e] w1]; [|done].
  destruct img_srcs as [[|src srcs]|].
  - by intros [= <- _].
  - intros Hrun.
    eapply (ifold_invariant
              (fun acc => record_shape n_ships acc
                          /\ names_filled (S idx) acc)
              (classify_image name idx overwrite (src :: srcs)));
      [|exact Hnamed|exact Hrun].
    intros acc img w0 acc' w0' [Hs Hn] Hturn.
    apply classify_image_ok in Hturn as [->|[key Hset']]; [done|].
    split; [by eapply set_cell_shape | by eapply set_cell_names].
  - by intros [= <- _].
Qed.

Lemma img_data_init_shape (n_ships : nat) :
  record_shape n_ships (img_data_init n_ships)
  /\ names_filled 0 (img_data_init n_ships).
Proof.
  split; [split|].
  - intros key. rewrite img_data_init_lookup.
    case_bool_decide as Hkey; split; done.
  - intros key column. rewrite img_data_init_lookup.
    case_bool_decide; [|done]. intros [= <-]. apply length_replicate.
  - exists (replicate n_ships None). split; [|intros i Hi; lia].
    rewrite img_data_init_lookup. rewrite bool_decide_eq_true_2; [done|].
    apply list_elem_of_here.
Qed.

(** X11.  The record of a run that ends well has the seven columns
    [Name], [Isometric], [Above], [Port], [Front], [Rear] and [Below] and
    no other, every column has one cell per ship, and no cell of the
    [Name] column is left empty: every cell assignment of the run was in
    range. *)
Theorem download_images_record (ships_data : list (string * string))
    (destination : string) (overwrite : bool) (w w' : world)
    (img_data : gmap string (list (option string))) :
  download_images ships_data destination overwrite w = (Ok img_data, w') ->
  record_shape (length ships_data) img_data
  /\ names_filled (length ships_data) img_data.
Proof.
  unfold download_images, ibind at 1, emit. intros Hrun.
  apply (ifold_numbered
           (fun k acc => record_shape (length ships_data) acc
                         /\ names_filled k acc)
           (visit_ship "data/images" overwrite) ships_data 0)
    with (w := log (Makedirs "data/images") w) (w' := w')
         (acc := img_data_init (length ships_data)).
  - intros i [name wiki] acc w0 acc' w0' Hi. apply visit_ship_shape. lia.
  - apply img_data_init_shape.
  - exact Hrun.
Qed.

Lemma download_images_record_witness :
  exists img_data w',
    download_images (aurora ++ carrack) "data/images" false (sample_world [])
      = (Ok img_data, w')
    /\ record_shape 2 img_data
    /\ names_filled 2 img_data.
Proof.
  destruct (download_images (aurora ++ carrack) "data/images" false
              (sample_world [])) as [[img_data|e] w'] eqn:Hrun.
  - exists img_data, w'. split; [done|].
    exact (download_images_record (aurora ++ carrack) "data/images" false
             (sample_world []) w' img_data Hrun).
  - vm_compute in Hrun. discriminate.
Defined.

(** ** A turn of the image loop *)

(** X12.  A view token that, once corrected, names none of the seven
    columns of the record stops the run at that image, whatever the
    [overwrite] flag: the turn prints the ship name, the token as it was
    found and the sources of the ship, raises a [KeyError], and fetches
    nothing. *)
Theorem classify_image_unknown_token (n_ships : nat) (name : string)
    (idx : nat) (overwrite : bool) (img_srcs : list string)
    (img_data : gmap string (list (option string)))
    (img_path img_src view_match : string) (w : world) :
  record_shape n_ships img_data ->
  view_search img_path = Some view_match ->
  view_fault_tolerance view_match ∉ img_data_keys ->
  classify_image name idx overwrite img_srcs img_data (img_path, img_src) w
  = (Raise KeyError, log (Print (name :: view_match :: img_srcs)) w).
Proof.
  intros [Hkeys _] Hmatch Hkey. unfold classify_image. rewrite Hmatch.
  unfold ibind. rewrite on_exn_lift_print. unfold set_cell.
  destruct (img_data !! view_fault_tolerance view_match) as [column|] eqn:Hcol;
    [|done].
  destruct Hkey. apply Hkeys. by eexists.
Qed.

Lemma classify_image_unknown_token_witness :
  classify_image "Carrack" 0 true
    ["https://media.starcitizen.tools/c/Carrack_Top.jpg"]
    (img_data_init 1)
    ("data/images/Carrack_Top.jpg",
     "https://media.starcitizen.tools/c/Carrack_Top.jpg")
    empty_world
  = (Raise KeyError,
     log (Print ["Carrack"; "Top";
                 "https://media.starcitizen.tools/c/Carrack_Top.jpg"])
         empty_world).
Proof.
  apply (classify_image_unknown_token 1).
  - apply img_data_init_shape.
  - vm_compute. reflexivity.
  - unfold img_data_keys, view_categories.
    rewrite !elem_of_cons, elem_of_nil.
    change (view_fault_tolerance "Top") with "Top". intuition discriminate.
Defined.

(** X13.  A view token that, once corrected, names a column is stored
    in range: when the image can be fetched if it has to be, the turn ends
    well, the cell of the ship in that column holds the base name of the
    image path, every other cell of the record is as before, the shape of
    the record is kept, and the file of the image is on disk afterwards,
    the only file the turn may add. *)
Theorem classify_image_stores (n_ships : nat) (name : string) (idx : nat)
    (overwrite : bool) (img_srcs : list string)
    (img_data : gmap string (list (option string)))
    (img_path img_src view_match : string) (w : world) :
  record_shape n_ships img_data ->
  idx < n_ships ->
  view_search img_path = Some view_match ->
  view_fault_tolerance view_match ∈ img_data_keys ->
  (overwrite = true \/ img_path ∉ files w -> is_Some (web w img_src)) ->
  exists img_data' w',
    classify_image name idx overwrite img_srcs img_data (img_path, img_src) w
      = (Ok img_data', w')
    /\ record_shape n_ships img_data'
    /\ (exists column,
          img_data' !! view_fault_tolerance view_match = Some column
          /\ column !! idx = Some (Some (basename img_path)))
    /\ (forall key column,
          img_data !! key = Some column ->
          exists column',
            img_data' !! key = Some column'
            /\ forall i, (key, i) <> (view_fault_tolerance view_match, idx) ->
                         column' !! i = column !! i)
    /\ img_path ∈ files w'
    /\ files w ⊆ files w'
    /\ files w' ⊆ {[img_path]} ∪ files w.
Proof.
  intros Hshape Hidx Hmatch Hkey Hweb.
  destruct (proj2 (proj1 Hshape _) Hkey) as [column Hcol].
  assert (set_cell (view_fault_tolerance view_match) idx (basename img_path)
            img_data
          = Ok (<[view_fault_tolerance view_match :=
                    <[idx := Some (basename img_path)]> column]> img_data))
    as Hset.
  { apply set_cell_ok. exists column. split_and!; [done| |done].
    by rewrite (proj2 Hshape _ _ Hcol). }
  assert (exists w',
            classify_image name idx overwrite img_srcs img_data
              (img_path, img_src) w
            = (Ok (<[view_fault_tolerance view_match :=
                       <[idx := Some (basename img_path)]> column]> img_data),
               w')
            /\ img_path ∈ files w'
            /\ files w ⊆ files w'
            /\ files w' ⊆ {[img_path]} ∪ files w) as (w' & Hrun & Hfiles).
  { unfold classify_image. rewrite Hmatch.
    unfold ibind at 1. rewrite on_exn_lift_print, Hset. unfold ibind, isfile.
    destruct (overwrite || negb (bool_decide (img_path ∈ files w)))
      eqn:Hgate.
    - destruct Hweb as [page Hpage].
      { apply orb_true_iff in Hgate as [Hov|Hnot]; [by left|right].
        apply negb_true_iff in Hnot. by apply bool_decide_eq_false in Hnot. }
      unfold download_image, iret. rewrite Hpage.
      eexists. split; [done|]. simpl. split_and!.
      + apply elem_of_union_l. by apply elem_of_singleton.
      + apply union_subseteq_r.
      + done.
    - apply orb_false_iff in Hgate as [_ Hpresent].
      apply negb_false_iff, bool_decide_eq_true in Hpresent.
      exists w. split; [done|]. split_and!; [done..|].
      apply union_subseteq_r. }
  destruct Hfiles as (Hin & Hsub & Hsup).
  eexists _, w'. split; [exact Hrun|]. split_and!; [| | |done..].
  - by eapply set_cell_shape.
  - eexists. rewrite lookup_insert_eq. split; [done|].
    apply list_lookup_insert_eq. by rewrite (proj2 Hshape _ _ Hcol).
  - intros key column0 Hcol0. rewrite lookup_insert.
    case_decide as Hk.
    + subst key. rewrite Hcol in Hcol0. injection Hcol0 as <-.
      eexists. split; [done|]. intros i Hne.
      apply list_lookup_insert_ne. congruence.
    + by exists column0.
Qed.

Lemma classify_image_stores_witness :
  exists img_data' w',
    classify_image "Aurora" 0 false
      ["https://media.starcitizen.tools/a/Aurora_Front.jpg"]
      (img_data_init 1)
      ("data/images/Aurora_Front.jpg",
       "https://media.starcitizen.tools/a/Aurora_Front.jpg")
      (sample_world [])
    = (Ok img_data', w')
    /\ img_data' !! "Front" = Some [Some "Aurora_Front.jpg"]
    /\ "data/images/Aurora_Front.jpg" ∈ files w'.
Proof.
  destruct (classify_image_stores 1 "Aurora" 0 false
              ["https://media.starcitizen.tools/a/Aurora_Front.jpg"]
              (img_data_init 1) "data/images/Aurora_Front.jpg"
              "https://media.starcitizen.tools/a/Aurora_Front.jpg" "Front"
              (sample_world []))
    as (img_data' & w' & Hrun & _ & _ & _ & Hfile & _).
  - apply img_data_init_shape.
  - lia.
  - vm_compute. reflexivity.
  - unfold img_data_keys, view_categories. rewrite !elem_of_cons.
    change (view_fault_tolerance "Front") with "Front".
    do 4 right. by left.
  - intros _. eexists. vm_compute. reflexivity.
  - exists img_data', w'. split; [exact Hrun|]. split; [|exact Hfile].
    vm_compute in Hrun. injection Hrun as <- _. vm_compute. reflexivity.
Defined.

(** ** A turn of the ship loop *)

(** X14.  A ship whose detail page cannot be loaded, or whose images the
    locator fails to list, stops the run: for a ship index in range, the
    turn prints "Problem with" and the address of the page, and raises the
    exception again. *)
Theorem visit_ship_problem (n_ships : nat) (destination : string)
    (overwrite : bool) (img_data : gmap string (list (option string)))
    (idx : nat) (name wiki : string) (w : world) :
  record_shape n_ships img_data ->
  idx < n_ships ->
  (web w wiki = None ->
   visit_ship destination overwrite img_data (idx, (name, wiki)) w
   = (Raise ConnectionError,
      World (web w) (files w)
            (trace w ++ [LoadPage wiki; Print ["Problem with"; wiki]])))
  /\ (forall ship_page e w1,
        web w wiki = Some ship_page ->
        get_in_space_image_src ship_page (log (LoadPage wiki) w)
          = (Raise e, w1) ->
        visit_ship destination overwrite img_data (idx, (name, wiki)) w
        = (Raise e, log (Print ["Problem with"; wiki]) w1)).
Proof.
  intros [Hkeys Hlen] Hidx.
  destruct (proj2 (Hkeys "Name")) as [column Hcol]; [apply list_elem_of_here|].
  assert (set_cell "Name" idx name img_data
          = Ok (<["Name" := <[idx := Some name]> column]> img_data)) as Hset.
  { apply set_cell_ok. exists column. split_and!; [done| |done].
    by rewrite (Hlen _ _ Hcol). }
  split.
  - intros Hweb. unfold visit_ship, ibind, on_error, lift, load_page.
    rewrite Hset, Hweb. unfold emit, log. simpl. by rewrite <- app_assoc.
  - intros ship_page e w1 Hweb Hloc.
    unfold visit_ship, ibind, on_error, lift, load_page.
    rewrite Hset, Hweb. fold (log (LoadPage wiki) w). by rewrite Hloc.
Qed.

Lemma visit_ship_problem_witness :
  visit_ship "data/images" false (img_data_init 1)
    (0, ("Aurora", "https://starcitizen.tools/Aurora")) empty_world
  = (Raise ConnectionError,
     World (web empty_world) ∅
           [LoadPage "https://starcitizen.tools/Aurora";
            Print ["Problem with"; "https://starcitizen.tools/Aurora"]]).
Proof.
  apply (proj1 (visit_ship_problem 1 "data/images" false (img_data_init 1)
                  0 "Aurora" "https://starcitizen.tools/Aurora" empty_world
                  (proj1 (img_data_init_shape 1)) (Nat.lt_0_succ 0))).
  reflexivity.
Defined.

(** ** A second run *)

Lemma emits_any_anti (w w' : world) (url file_name : string) :
  web w' = web w -> files w ⊆ files w' -> True -> True.
Proof. done. Qed.

Lemma emits_run {A} (c : IO A) (w w' : world) (r : result A) :
  emits (fun _ _ _ => True) c ->
  c w = (r, w') -> web w' = web w /\ files w ⊆ files w'.
Proof.
  intros Hc Hrun. destruct (Hc w) as (t & (Hweb & Hfiles & _) & _).
  by rewrite Hrun in Hweb, Hfiles.
Qed.

Lemma world_eta (w : world) : World (web w) (files w) (trace w ++ []) = w.
Proof. rewrite app_nil_r. by destruct w. Qed.

Lemma replays_iret {A} (a : A) : replays (iret a).
Proof.
  split; [apply emits_iret|]. intros w1 a' w1' w2 [= <- <-] _ _.
  exists []. by rewrite world_eta.
Qed.

Lemma replays_lift {A} (r : result A) : replays (lift r).
Proof.
  split; [apply emits_lift|]. intros w1 a w1' w2 [= -> <-] _ _.
  exists []. by rewrite world_eta.
Qed.

Lemma replays_makedirs (path : string) : replays (emit (Makedirs path)).
Proof.
  split; [apply emits_makedirs|]. intros w1 [] w1' w2 _ _ _.
  by exists [Makedirs path].
Qed.

Lemma replays_load_page (url : string) : replays (load_page url).
Proof.
  split; [apply emits_load_page|]. intros w1 page w1' w2 Hrun Hweb _.
  assert (web w2 url = web w1 url) as Hurl by by rewrite Hweb.
  exists [LoadPage url]. unfold load_page in *. rewrite Hurl.
  destruct (web w1 url); [|done]. by injection Hrun as <- _.
Qed.

Lemma replays_ibind {A B} (c : IO A) (k : A -> IO B) :
  replays c -> (forall a, replays (k a)) -> replays (ibind c k).
Proof.
  intros [Hc Hrc] Hk. split.
  { apply emits_ibind; [exact emits_any_anti|done|]. intros a. apply Hk. }
  intros w1 b w1' w2 Hrun Hweb Hfiles. unfold ibind in *.
  destruct (c w1) as [[a|e] wm] eqn:Hfirst; [|done].
  destruct (emits_run _ _ _ _ Hc Hfirst) as [Hwebm _].
  destruct (emits_run _ _ _ _ (proj1 (Hk a)) Hrun) as [_ Hfilesm].
  destruct (Hrc w1 a wm w2 Hfirst Hweb) as (t1 & -> & Hq1);
    [by etrans|].
  destruct (proj2 (Hk a) wm b w1' (World (web w2) (files w2) (trace w2 ++ t1))
              Hrun) as (t2 & -> & Hq2); [simpl; congruence|done|].
  exists (t1 ++ t2)%list. simpl. rewrite <- app_assoc. split; [done|].
  by rewrite downloads_app, Hq1, Hq2.
Qed.

Lemma replays_on_error {A} (c : IO A) (h : IO unit) :
  replays c -> emits (fun _ _ _ => True) h -> replays (on_error c h).
Proof.
  intros [Hc Hrc] Hh. split.
  { by apply emits_on_error; [exact emits_any_anti|..]. }
  intros w1 a w1' w2 Hrun Hweb Hfiles. unfold on_error in *.
  destruct (c w1) as [[a'|e] wm] eqn:Hfirst.
  - injection Hrun as <- <-.
    destruct (Hrc w1 a' wm w2 Hfirst Hweb Hfiles) as (t & -> & Hq).
    by exists t.
  - by destruct (h wm) as [[[]|e'] w'].
Qed.

Lemma replays_ifold {A B} (f : B -> A -> IO B) (l : list A) :
  (forall acc a, replays (f acc a)) ->
  forall acc, replays (ifold f acc l).
Proof.
  intros Hf. induction l as [|a l IH]; intros acc; cbn [ifold].
  - apply replays_iret.
  - apply replays_ibind; [apply Hf|]. intros acc'. apply IH.
Qed.

Lemma replays_imap_io {A B} (f : A -> IO B) (l : list A) :
  (forall a, replays (f a)) -> replays (imap_io f l).
Proof.
  intros Hf. induction l as [|a l IH]; cbn [imap_io].
  - apply replays_iret.
  - apply replays_ibind; [apply Hf|]. intros b.
    apply replays_ibind; [apply IH|]. intros bs. apply replays_iret.
Qed.

Lemma replays_media_src (element : node) : replays (media_src element).
Proof.
  unfold media_src. apply replays_ibind; [apply replays_lift|]. intros href.
  apply replays_ibind; [apply replays_load_page|]. intros media_page.
  apply replays_lift.
Qed.

Lemma replays_get_in_space_image_src (ship_page : node) :
  replays (get_in_space_image_src ship_page).
Proof.
  unfold get_in_space_image_src.
  destruct (locate ship_profile ship_page []) as [[header sibs]|];
    [|apply replays_iret].
  apply replays_ibind; [apply replays_lift|]. intros [img_table|];
    [|apply replays_iret].
  apply replays_ibind; [apply replays_imap_io, replays_media_src|].
  intros srcs. apply replays_iret.
Qed.

(** With [overwrite] unset, a turn of the image loop that ended well left
    the file of its image on disk; replayed, it finds the file and fetches
    nothing. *)
Lemma replays_classify_image (name : string) (idx : nat)
    (img_srcs : list string) (img_data : gmap string (list (option string)))
    (img : string * string) :
  replays (classify_image name idx false img_srcs img_data img).
Proof.
  destruct img as [img_path img_src]. split.
  { by apply emits_classify_image; [exact emits_any_anti|]. }
  intros w1 stored w1' w2 Hrun Hweb Hfiles. unfold classify_image in *.
  destruct (view_search img_path) as [view_match|].
  - unfold ibind at 1. unfold ibind in Hrun at 1.
    rewrite on_exn_lift_print in *. unfold ibind, isfile in *.
    destruct (set_cell (view_fault_tolerance view_match) idx
                (basename img_path) img_data) as [stored'|e];
      [|by case_decide].
    assert (stored' = stored /\ img_path ∈ files w1') as [-> Hin].
    { cbn [orb] in Hrun. case_bool_decide as Hpresent; cbn [negb] in Hrun.
      - by injection Hrun as <- <-.
      - unfold download_image, iret in Hrun.
        destruct (web w1 img_src); [|done]. injection Hrun as <- <-.
        split; [done|]. simpl. apply elem_of_union_l.
        by apply elem_of_singleton. }
    exists []. cbn [orb]. rewrite bool_decide_eq_true_2 by by apply Hfiles.
    cbn [negb]. unfold iret. by rewrite world_eta.
  - injection Hrun as <- <-. exists []. unfold iret. by rewrite world_eta.
Qed.

Lemma replays_visit_ship (destination : string)
    (img_data : gmap string (list (option string)))
    (row : nat * (string * string)) :
  replays (visit_ship destination false img_data row).
Proof.
  destruct row as [idx [name wiki]]. unfold visit_ship.
  apply replays_ibind; [apply replays_lift|]. intros img_data'.
  apply replays_ibind.
  { apply replays_on_error; [|apply emits_print].
    apply replays_ibind; [apply replays_load_page|].
    intros page. apply replays_get_in_space_image_src. }
  intros [[|src srcs]|]; try apply replays_iret.
  apply replays_ifold. intros acc img. apply replays_classify_image.
Qed.

Lemma replays_download_images (ships_data : list (string * string))
    (destination : string) :
  replays (download_images ships_data destination false).
Proof.
  unfold download_images.
  apply replays_ibind; [apply replays_makedirs|]. intros _.
  apply replays_ifold. intros acc row. apply replays_visit_ship.
Qed.

(** X15.  Running twice fetches nothing the second time: after a run
    with [overwrite] unset that ended well, a run over the same ships with
    [overwrite] unset, started where the first run stopped (or in any world
    with the same site and at least the files the first run left), ends
    well with the same record, makes no download and leaves the files as
    they are. *)
Theorem download_images_second_run (ships_data : list (string * string))
    (destination destination' : string) (w w' w2 : world)
    (img_data : gmap string (list (option string))) :
  download_images ships_data destination false w = (Ok img_data, w') ->
  web w2 = web w ->
  files w' ⊆ files w2 ->
  exists t,
    download_images ships_data destination' false w2
      = (Ok img_data, World (web w2) (files w2) (trace w2 ++ t))
    /\ downloads t = [].
Proof.
  intros Hrun Hweb Hfiles.
  exact (proj2 (replays_download_images ships_data destination')
           w img_data w' w2 Hrun Hweb Hfiles).
Qed.

Lemma download_images_second_run_witness :
  exists img_data w' t,
    download_images aurora "data/images" false (sample_world [])
      = (Ok img_data, w')
    /\ downloads (trace w')
       = [("https://media.starcitizen.tools/a/Aurora_Front.jpg",
           "data/images/Aurora_Front.jpg")]
    /\ download_images aurora "data/images" false w'
       = (Ok img_data, World (web w') (files w') (trace w' ++ t))
    /\ downloads t = [].
Proof.
  destruct (download_images aurora "data/images" false (sample_world []))
    as [[img_data|e] w'] eqn:Hrun; [|vm_compute in Hrun; discriminate].
  destruct (download_images_second_run aurora "data/images" "data/images"
              (sample_world []) w' w' img_data Hrun) as (t & Hagain & Hquiet).
  - vm_compute in Hrun. by injection Hrun as _ <-.
  - done.
  - exists img_data, w', t. split_and!; [done| |done..].
    vm_compute in Hrun. by injection Hrun as _ <-.
Defined.

(** ** Rows that extract *)

Section WellFormedRows.

Variable F : Type.
Variable float_of_str : string -> option F.

Lemma link_cell_ok (c k : string) (row_element : node)
    (wrap : string -> value F) :
  is_ok (let? a := dot_a (td c row_element) in
         let? v := getitem a k in Ok (wrap v))
  <-> has_link c k row_element.
Proof.
  unfold has_link, dot_a, getitem, is_ok.
  destruct (td c row_element) as [cell|]; simpl;
    [|split; [by intros [? ?]|]; by intros (cell' & a' & v & ? & _)].
  destruct (find (named "a") cell) as [a|] eqn:Hlink; simpl.
  - destruct (tag_attrs a !! k) as [v|] eqn:Hattr; simpl.
    + split; [intros _; by exists cell, a, v|by eexists].
    + split; [by intros [? ?]|].
      intros (cell' & a' & v & [= <-] & Ha' & Hv). congruence.
  - split; [by intros [? ?]|].
    intros (cell' & a' & v & [= <-] & Ha' & _). congruence.
Qed.

Lemma size_cell_ok (row_element : node) :
  is_ok (extract_cell_Size F row_element) <-> has_content "Size" row_element.
Proof.
  unfold extract_cell_Size, has_content, is_ok.
  destruct (td "Size" row_element) as [cell|].
  - destruct (tag_contents cell) as [|child rest] eqn:Hcontents.
    + split; [by intros [? ?]|]. intros (cell' & [= <-] & Hne). congruence.
    + split; [|by eexists]. intros _. exists cell. by rewrite Hcontents.
  - split; [by intros [? ?]|]. by intros (cell' & ? & _).
Qed.

Lemma number_cell_ok (c : string) (row_element : node) :
  is_ok (let? v := getitem (td c row_element) "data-sort-value" in
         let? f := float F float_of_str v in Ok (VFloat f))
  <-> has_number float_of_str c row_element.
Proof.
  unfold has_number, getitem, float, is_ok.
  destruct (td c row_element) as [cell|]; simpl.
  - destruct (tag_attrs cell !! "data-sort-value") as [v|] eqn:Hattr; simpl.
    + destruct (float_of_str v) as [f|] eqn:Hfloat; simpl.
      * split; [|by eexists]. intros _. exists cell, v. by rewrite Hfloat.
      * split; [by intros [? ?]|].
        intros (cell' & v' & [= <-] & Hv' & [f Hf]). congruence.
    + split; [by intros [? ?]|].
      intros (cell' & v' & [= <-] & Hv' & _). congruence.
  - split; [by intros [? ?]|]. by intros (cell' & v' & ? & _).
Qed.

Lemma optional_cell_ok (c : string) (row_element : node) :
  is_ok (try_except
           (let? v := getitem (td c row_element) "data-sort-value" in
            let? f := float F float_of_str v in Ok (VFloat f))
           KeyError (Ok (VInt (-1))))
  <-> has_optional_number float_of_str c row_element.
Proof.
  unfold has_optional_number, getitem, float, is_ok.
  destruct (td c row_element) as [cell|]; simpl.
  - destruct (tag_attrs cell !! "data-sort-value") as [v|] eqn:Hattr; simpl.
    + destruct (float_of_str v) as [f|] eqn:Hfloat; simpl.
      * split; [|by eexists]. intros _. exists cell. split; [done|].
        intros v' Hv'. rewrite Hattr in Hv'. injection Hv' as <-.
        by rewrite Hfloat.
      * split; [by intros [? ?]|]. intros (cell' & [= <-] & Hnum).
        destruct (Hnum v Hattr) as [f Hf]. congruence.
    + split; [|by eexists]. intros _. exists cell. split; [done|].
      intros v. by rewrite Hattr.
  - split; [by intros [? ?]|]. by intros (cell' & ? & _).
Qed.

Lemma rmap_ok_iff {A B} (f : A -> result B) (l : list A) :
  is_ok (rmap f l) <-> Forall (fun a => is_ok (f a)) l.
Proof.
  split; [|apply rmap_total]. intros [bs Hbs]. by eapply rmap_ok_forall.
Qed.

(** X16.  A row of the listing extracts under the ten columns of
    [SHIPS_TABLES_DEF] exactly when it is well formed: the first link of
    its [Name] cell has a [title] and an [href], the first link of its
    [Manufacturer] cell has a [title], its [Size] cell is not empty, its
    [Length], [Width] and [Height] cells carry a number as sort value, and
    its three optional cells are there and carry a number or no sort value
    at all.  Any other row makes [extract_row] raise. *)
Theorem extract_row_well_formed (row_element : node) :
  is_ok (extract_row row_element (SHIPS_TABLES_DEF F float_of_str))
  <-> well_formed_row float_of_str row_element.
Proof.
  unfold extract_row, SHIPS_TABLES_DEF, well_formed_row.
  rewrite rmap_ok_iff, !Forall_cons, Forall_nil. cbn [snd].
  unfold extract_cell_Name, extract_cell_Wiki, extract_cell_Manufacturer,
    extract_cell_Length, extract_cell_Width, extract_cell_Height,
    extract_cell_Max_speed, extract_cell_SCM_speed, extract_cell_0_SCM_time.
  rewrite (link_cell_ok "Name" "title" row_element VStr).
  rewrite (link_cell_ok "Name" "href" row_element
             (fun h => VStr (STAR_CITIZEN_WIKI_ROOT ++ h))).
  rewrite (link_cell_ok "Manufacturer" "title" row_element VStr).
  rewrite size_cell_ok, !number_cell_ok, !optional_cell_ok.
  intuition.
Qed.

End WellFormedRows.

Lemma extract_row_well_formed_witness :
  is_ok (extract_row full_row (SHIPS_TABLES_DEF (Z * Z) sample_float)).
Proof.
  apply (extract_row_well_formed (Z * Z) sample_float full_row).
  unfold well_formed_row, has_link, has_content, has_number,
    has_optional_number.
  split_and!.
  - eexists _, _, _. split_and!; vm_compute; reflexivity.
  - eexists _, _, _. split_and!; vm_compute; reflexivity.
  - eexists _, _, _. split_and!; vm_compute; reflexivity.
  - eexists. split; [vm_compute; reflexivity|done].
  - eexists _, "12.5". split_and!; [vm_compute; reflexivity..|by eexists].
  - eexists _, "12.5". split_and!; [vm_compute; reflexivity..|by eexists].
  - eexists _, "12.5". split_and!; [vm_compute; reflexivity..|by eexists].
  - eexists. split; [vm_compute; reflexivity|].
    intros v Hv. vm_compute in Hv. injection Hv as <-. by eexists.
  - eexists. split; [vm_compute; reflexivity|].
    intros v Hv. vm_compute in Hv. discriminate.
  - eexists. split; [vm_compute; reflexivity|].
    intros v Hv. vm_compute in Hv. discriminate.
Defined.

(** ** Overwriting *)

(** What the locator returns depends on the site alone. *)
Lemma locator_result_web (ship_page : node) (w w0 : world) :
  web w0 = web w ->
  (get_in_space_image_src ship_page w0).1
  = (get_in_space_image_src ship_page w).1.
Proof.
  intros Hweb.
  destruct (locate ship_profile ship_page []) as [[header sibs]|] eqn:Hloc.
  - rewrite !(locator_with_header _ _ _ _ Hloc).
    destruct (find_img_table sibs) as [[img_table|]|e]; [|done..].
    unfold ibind, iret.
    destruct (imap_media_src_cases w (find_all frameless_figure img_table))
      as [[loads Hall]
         |(before & element & after & loads & e & t & -> & Hbefore & Hfails)].
    + rewrite (imap_media_src_resolves w _ loads Hall w0 Hweb).
      by rewrite (imap_media_src_resolves w _ loads Hall w eq_refl).
    + rewrite (imap_media_src_fails w _ _ _ loads e t Hbefore Hfails w0 Hweb).
      by rewrite (imap_media_src_fails w _ _ _ loads e t Hbefore Hfails w
                    eq_refl).
  - unfold get_in_space_image_src. by rewrite Hloc.
Qed.

Lemma emits_extends {A} (c : IO A) (w w' : world) (r : result A) :
  emits (fun _ _ _ => True) c ->
  c w = (r, w') -> exists t, extends w w' t.
Proof.
  intros Hc Hrun. destruct (Hc w) as (t & Hext & _).
  rewrite Hrun in Hext. by exists t.
Qed.

Lemma zip_fmap_in {A B} (f : A -> B) (l : list A) (a : A) :
  a ∈ l -> (f a, a) ∈ zip (f <$> l) l.
Proof.
  induction l as [|x l IH]; intros Hin; [by apply elem_of_nil in Hin|].
  apply elem_of_cons in Hin as [->|Hin].
  - apply list_elem_of_here.
  - apply list_elem_of_further. by apply IH.
Qed.

(** With [overwrite] set, a turn of the image loop that ends well on a
    path with a view token has made exactly one fetch, whatever is on
    disk. *)
Lemma classify_image_fetches (name : string) (idx : nat)
    (img_srcs : list string)
    (img_data img_data' : gmap string (list (option string)))
    (img_path img_src : string) (w w' : world) :
  classify_image name idx true img_srcs img_data (img_path, img_src) w
    = (Ok img_data', w') ->
  is_Some (view_search img_path) ->
  extends w w' [Download img_src img_path].
Proof.
  intros Hrun [view_match Hmatch]. unfold classify_image in Hrun.
  rewrite Hmatch in Hrun. unfold ibind in Hrun at 1.
  rewrite on_exn_lift_print in Hrun.
  destruct (set_cell (view_fault_tolerance view_match) idx
              (basename img_path) img_data) as [stored|e];
    [|by case_decide].
  unfold ibind, isfile, download_image, iret in Hrun. cbn [orb] in Hrun.
  destruct (web w img_src); [|done]. injection Hrun as _ <-.
  split_and!; [done| |done]. simpl. apply union_subseteq_r.
Qed.

Lemma image_loop_fetches (name : string) (idx : nat) (img_srcs : list string)
    (imgs : list (string * string)) (img_path img_src : string) :
  (img_path, img_src) ∈ imgs ->
  is_Some (view_search img_path) ->
  forall img_data w img_data' w',
    ifold (classify_image name idx true img_srcs) img_data imgs w
      = (Ok img_data', w') ->
    exists t, extends w w' t /\ (img_src, img_path) ∈ downloads t.
Proof.
  intros Hin Htoken.
  induction imgs as [|[p s] imgs IH]; intros img_data w img_data' w' Hrun;
    [by apply elem_of_nil in Hin|].
  cbn [ifold] in Hrun. unfold ibind in Hrun.
  destruct (classify_image name idx true img_srcs img_data (p, s) w)
    as [[img_data1|e] w1] eqn:Hturn; [|done].
  apply elem_of_cons in Hin as [[= <- <-]|Hin].
  - pose proof (classify_image_fetches _ _ _ _ _ _ _ _ _ Hturn Htoken) as Hext1.
    destruct (emits_extends _ _ _ _
                (emits_ifold _ emits_any_anti _ imgs
                   (fun acc img _ =>
                      match img with
                      | (p', s') =>
                          emits_classify_image _ emits_any_anti name idx true
                            img_srcs acc p' s' (fun _ _ _ => I)
                      end) img_data1) Hrun) as [t2 Hext2].
    exists ([Download img_src img_path] ++ t2)%list.
    split; [by eapply extends_trans|].
    rewrite downloads_app. apply elem_of_app. left. apply list_elem_of_here.
  - destruct (IH Hin _ _ _ _ Hrun) as (t2 & Hext2 & Hfetch).
    destruct (emits_extends _ _ _ _
                (emits_classify_image _ emits_any_anti name idx true img_srcs
                   img_data p s (fun _ _ _ => I)) Hturn) as [t1 Hext1].
    exists (t1 ++ t2)%list. split; [by eapply extends_trans|].
    rewrite downloads_app. apply elem_of_app. by right.
Qed.

Lemma emits_any_visit_ship (destination : string) (overwrite : bool)
    (img_data : gmap string (list (option string)))
    (row : nat * (string * string)) :
  emits (fun _ _ _ => True) (visit_ship destination overwrite img_data row).
Proof. by apply emits_visit_ship; [exact emits_any_anti|]. Qed.

Lemma visit_ship_fetches (destination : string)
    (img_data img_data' : gmap string (list (option string)))
    (idx : nat) (name wiki : string) (ship_page : node)
    (img_srcs : list string) (img_src : string) (w w' : world) :
  visit_ship destination true img_data (idx, (name, wiki)) w
    = (Ok img_data', w') ->
  web w wiki = Some ship_page ->
  (get_in_space_image_src ship_page (log (LoadPage wiki) w)).1
    = Ok (Some img_srcs) ->
  img_src ∈ img_srcs ->
  is_Some (view_search (path_join destination (basename img_src))) ->
  exists t,
    extends w w' t
    /\ (img_src, path_join destination (basename img_src)) ∈ downloads t.
Proof.
  intros Hrun Hweb Hloc Hin Htoken. unfold visit_ship in Hrun.
  unfold ibind in Hrun at 1. unfold lift in Hrun.
  destruct (set_cell "Name" idx name img_data) as [named_data|e]; [|done].
  unfold ibind, on_error, load_page in Hrun. rewrite Hweb in Hrun.
  destruct (get_in_space_image_src ship_page (log (LoadPage wiki) w))
    as [r w1] eqn:Hlocator.
  simpl in Hloc. subst r.
  destruct (emits_extends _ _ _ _
              (emits_get_in_space_image_src _ emits_any_anti ship_page)
              Hlocator) as [t1 Hext1].
  destruct img_srcs as [|src srcs]; [by apply elem_of_nil in Hin|].
  destruct (image_loop_fetches name idx (src :: srcs) _ _ img_src
              (zip_fmap_in _ _ _ Hin) Htoken _ _ _ _ Hrun)
    as (t2 & Hext2 & Hfetch).
  exists ([LoadPage wiki] ++ t1 ++ t2)%list. split.
  - eapply extends_trans; [apply extends_log|]. by eapply extends_trans.
  - rewrite !downloads_app. apply elem_of_app. right.
    apply elem_of_app. by right.
Qed.

Lemma ship_loop_fetches (destination : string) (w : world)
    (name wiki : string) (ship_page : node) (img_srcs : list string)
    (img_src : string) (ships_data : list (string * string)) :
  (name, wiki) ∈ ships_data ->
  web w wiki = Some ship_page ->
  (get_in_space_image_src ship_page w).1 = Ok (Some img_srcs) ->
  img_src ∈ img_srcs ->
  is_Some (view_search (path_join destination (basename img_src))) ->
  forall start img_data w0 img_data' w',
    web w0 = web w ->
    ifold (visit_ship destination true) img_data
          (zip (seq start (length ships_data)) ships_data) w0
      = (Ok img_data', w') ->
    exists t,
      extends w0 w' t
      /\ (img_src, path_join destination (basename img_src)) ∈ downloads t.
Proof.
  intros Hship Hpage Hloc Hin Htoken.
  induction ships_data as [|[name0 wiki0] ships_data IH];
    intros start img_data w0 img_data' w' Hweb Hrun;
    [by apply elem_of_nil in Hship|].
  cbn [length seq zip zip_with ifold] in Hrun. unfold ibind in Hrun.
  destruct (visit_ship destination true img_data (start, (name0, wiki0)) w0)
    as [[img_data1|e] w1] eqn:Hturn; [|done].
  destruct (emits_extends _ _ _ _ (emits_any_visit_ship _ _ _ _) Hturn)
    as [t1 Hext1].
  apply elem_of_cons in Hship as [[= <- <-]|Hship].
  - destruct (visit_ship_fetches _ _ _ _ _ _ ship_page img_srcs img_src _ _
                Hturn) as (t1' & Hext1' & Hfetch); [congruence| |done..|].
    { rewrite <- Hloc. by apply locator_result_web. }
    destruct (emits_extends _ _ _ _
                (emits_ifold _ emits_any_anti _ _
                   (fun acc row _ => emits_any_visit_ship _ _ acc row)
                   img_data1) Hrun) as [t2 Hext2].
    exists (t1' ++ t2)%list. split; [by eapply extends_trans|].
    rewrite downloads_app. apply elem_of_app. by left.
  - destruct (IH Hship (S start) img_data1 w1 img_data' w')
      as (t2 & Hext2 & Hfetch); [|done|].
    { destruct Hext1 as [Hweb1 _]. congruence. }
    exists (t1 ++ t2)%list. split; [by eapply extends_trans|].
    rewrite downloads_app. apply elem_of_app. by right.
Qed.

(** A run with [overwrite] set that ends well has fetched every located
    image whose path carries a view token. *)
Lemma download_images_overwrite (ships_data : list (string * string))
    (destination : string) (w w' : world)
    (img_data : gmap string (list (option string)))
    (name wiki : string) (ship_page : node) (img_srcs : list string)
    (img_src : string) :
  download_images ships_data destination true w = (Ok img_data, w') ->
  (name, wiki) ∈ ships_data ->
  web w wiki = Some ship_page ->
  (get_in_space_image_src ship_page w).1 = Ok (Some img_srcs) ->
  img_src ∈ img_srcs ->
  is_Some (view_search (path_join "data/images" (basename img_src))) ->
  exists t,
    extends w w' t
    /\ (img_src, path_join "data/images" (basename img_src)) ∈ downloads t.
Proof.
  intros Hrun Hship Hpage Hloc Hin Htoken.
  unfold download_images, ibind at 1, emit in Hrun.
  destruct (ship_loop_fetches "data/images" w name wiki ship_page img_srcs
              img_src ships_data Hship Hpage Hloc Hin Htoken 0 _
              (log (Makedirs "data/images") w) _ _ eq_refl Hrun)
    as (t & Hext & Hfetch).
  exists ([Makedirs "data/images"] ++ t)%list. split.
  - eapply extends_trans; [apply extends_log|done].
  - rewrite downloads_app. apply elem_of_app. by right.
Qed.

(** Whatever the flag, only images whose path carries a view token are
    fetched. *)
Lemma download_images_tokens (ships_data : list (string * string))
    (destination : string) (overwrite : bool) (w : world) :
  exists t,
    extends w (download_images ships_data destination overwrite w).2 t
    /\ forall url file_name,
         (url, file_name) ∈ downloads t -> is_Some (view_search file_name).
Proof.
  destruct (emits_download_images
              (fun _ _ file_name => is_Some (view_search file_name)))
    with (ships_data := ships_data) (destination := destination)
         (overwrite := overwrite) (w := w) as (t & Hext & Hok).
  - done.
  - done.
  - exists t. split; [done|]. intros url file_name Hin.
    apply downloads_elem in Hin. rewrite Forall_forall in Hok.
    exact (Hok _ Hin).
Qed.

(** C8 (as amended).  With [overwrite] unset, a run fetches no image
    whose file was on disk when it started.  With [overwrite] set, a run
    that ends without an exception has fetched every image that the
    locator lists for one of its ships and whose path carries a view
    token, whether or not the file of the image was on disk.  And whatever
    the flag, an image whose path carries no view token is never
    fetched. *)
Theorem download_gating :
  (forall ships_data destination w,
     no_refetch w (download_images ships_data destination false w).2)
  /\
  (forall ships_data destination w img_data w' name wiki ship_page
          img_srcs img_src,
     download_images ships_data destination true w = (Ok img_data, w') ->
     (name, wiki) ∈ ships_data ->
     web w wiki = Some ship_page ->
     (get_in_space_image_src ship_page w).1 = Ok (Some img_srcs) ->
     img_src ∈ img_srcs ->
     is_Some (view_search (path_join "data/images" (basename img_src))) ->
     exists t,
       extends w w' t
       /\ (img_src, path_join "data/images" (basename img_src))
          ∈ downloads t)
  /\
  (forall ships_data destination overwrite w,
     exists t,
       extends w (download_images ships_data destination overwrite w).2 t
       /\ forall url file_name,
            (url, file_name) ∈ downloads t ->
            is_Some (view_search file_name)).
Proof.
  split_and!.
  - apply download_images_no_refetch.
  - intros ships_data destination w img_data w' name wiki ship_page
           img_srcs img_src.
    apply download_images_overwrite.
  - apply download_images_tokens.
Qed.

Lemma download_gating_witness :
  let w := sample_world ["data/images/Aurora_Front.jpg"] in
  "data/images/Aurora_Front.jpg" ∈ files w
  /\ exists img_data w' t,
       download_images aurora "data/images" true w = (Ok img_data, w')
       /\ extends w w' t
       /\ ("https://media.starcitizen.tools/a/Aurora_Front.jpg",
           "data/images/Aurora_Front.jpg") ∈ downloads t.
Proof.
  intros w. split; [vm_compute; reflexivity|].
  destruct (download_images aurora "data/images" true w)
    as [[img_data|e] w'] eqn:Hrun; [|vm_compute in Hrun; discriminate].
  destruct (proj1 (proj2 download_gating) aurora "data/images" w img_data w'
              "Aurora" "https://starcitizen.tools/Aurora"
              (gallery_page ["/File:Aurora_Front.jpg"])
              ["https://media.starcitizen.tools/a/Aurora_Front.jpg"]
              "https://media.starcitizen.tools/a/Aurora_Front.jpg" Hrun)
    as (t & Hext & Hfetch).
  - apply list_elem_of_here.
  - vm_compute. reflexivity.
  - vm_compute. reflexivity.
  - apply list_elem_of_here.
  - eexists. vm_compute. reflexivity.
  - by exists img_data, w', t.
Defined.
